(** * compile-contracts: a shallow embedding of [src/scripts/compile-contracts.ts]

    The script discovers Solidity sources grouped by version directory, resets
    the output directory, runs one external compiler per version, renames the
    flattened artifact names the compiler emits back into a directory layout,
    and copies prebuilt ABIs.

    Strings are sequences of code units ([string]); every separator the
    script looks for is ASCII.  The Node.js runtime (file system, child
    processes, [path], [glob], [fs-extra]) is not part of the script: it is an
    interface, [NodeEnv], whose operations act on an abstract [World].  The
    script's functions are written once, over any [NodeEnv]; [Ref.env] is one
    concrete environment (a small in-memory POSIX tree) on which the script
    can be run. *)

From Stdlib Require Import String Ascii List Bool Arith Lia Permutation.
From Stdlib Require DecimalString.
Import ListNotations.
Local Open Scope string_scope.
Local Open Scope list_scope.

(** ** JavaScript strings *)

Module Js.

(** [s.startsWith(p)] *)
Definition startsWith (s p : string) : bool := String.prefix p s.

(** [s.slice(n)] for [0 <= n]. *)
Fixpoint slice (n : nat) (s : string) : string :=
  match n, s with
  | O, _ => s
  | S _, EmptyString => EmptyString
  | S n', String _ s' => slice n' s'
  end.

(** [s.split(sep)] for a non-empty separator: the pieces between the
    successive, non-overlapping occurrences of [sep], found left to right.
    [skip] counts the code units of a separator still to be passed over and
    [acc] is the piece being read. *)
Fixpoint split_go (sep : string) (skip : nat) (acc s : string) : list string :=
  match s with
  | EmptyString => [acc]
  | String c s' =>
      match skip with
      | S k => split_go sep k acc s'
      | O =>
          if String.prefix sep s
          then acc :: split_go sep (String.length sep - 1) EmptyString s'
          else split_go sep 0 (acc ++ String c EmptyString)%string s'
      end
  end.

Definition split (sep s : string) : list string := split_go sep 0 EmptyString s.

(** [a.join(sep)] *)
Definition join (sep : string) (l : list string) : string := String.concat sep l.

(** [s.includes(p)] *)
Fixpoint includes (p s : string) : bool :=
  String.prefix p s ||
  match s with
  | EmptyString => false
  | String _ s' => includes p s'
  end.

(** [s.replace(pat, by)] with a string pattern: only the first occurrence
    is replaced. *)
Fixpoint replace (pat by_ s : string) : string :=
  if String.prefix pat s
  then (by_ ++ slice (String.length pat) s)%string
  else match s with
       | EmptyString => EmptyString
       | String c s' => String c (replace pat by_ s')
       end.

(** [s.endsWith(p)] *)
Definition endsWith (s p : string) : bool :=
  let n := String.length s in
  let m := String.length p in
  (m <=? n)%nat && String.eqb (slice (n - m) s) p.

(** [String(n)] for a non-negative integer. *)
Definition of_nat (n : nat) : string :=
  DecimalString.NilEmpty.string_of_uint (Nat.to_uint n).

(** A thrown value: an [Error] object with its [name], [message] and the
    [code] Node attaches to system errors. *)
Record Error : Type := mkError {
  name : string;
  message : string;
  code : option string
}.

Definition new_Error (msg : string) : Error := mkError "Error" msg None.
Definition TypeError (msg : string) : Error := mkError "TypeError" msg None.

(** The outcome of evaluating an expression that may throw. *)
Inductive Result (A : Type) : Type :=
| Ok (a : A)
| Thrown (e : Error).
Arguments Ok {A} a.
Arguments Thrown {A} e.

(** [new Map(pairs)]: a later pair with a key already present replaces the
    value and keeps the key's place in the iteration order. *)
Fixpoint Map_set {V} (k : string) (v : V) (m : list (string * V)) : list (string * V) :=
  match m with
  | [] => [(k, v)]
  | (k', v') :: m' =>
      if String.eqb k' k then (k', v) :: m' else (k', v') :: Map_set k v m'
  end.

Definition new_Map {V} (pairs : list (string * V)) : list (string * V) :=
  fold_left (fun m kv => Map_set (fst kv) (snd kv) m) pairs [].

(** [a.sort(compare)] for a comparator that orders consistently: a stable
    sort, here by insertion from the right. *)
Fixpoint sort_insert {A} (compare : A -> A -> comparison) (x : A) (l : list A) : list A :=
  match l with
  | [] => [x]
  | y :: l' =>
      match compare x y with
      | Gt => y :: sort_insert compare x l'
      | _ => x :: l
      end
  end.

Definition sort {A} (compare : A -> A -> comparison) (a : list A) : list A :=
  fold_right (sort_insert compare) [] a.

Definition keys {V} (m : list (string * V)) : list string := map fst m.
Definition entries {V} (m : list (string * V)) : list (string * V) := m.

End Js.

Import Js.

(** ** The Node.js environment *)

(** [fs.Dirent], as far as the script reads it. *)
Record Dirent : Type := mkDirent {
  dirent_name : string;
  dirent_isDirectory : bool
}.

(** [fs.Stats], as far as the script reads it. *)
Record FsStats : Type := mkStats {
  isDirectory : bool
}.

(** What the script imports.  Reads leave the world as it is; writes return
    the world they leave behind, also when they throw. *)
Record NodeEnv : Type := mkEnv {
  World : Type;
  (** The directory of the script *)
  __dirname : string;
  (** [path.resolve(...segments)] and [path.posix.join(...segments)] *)
  resolve : list string -> string;
  posix_join : list string -> string;
  (** [bold] and [brightItalic] of [./_common] *)
  bold : string -> string;
  brightItalic : string -> string;
  (** [readdirSync(dir, { withFileTypes: true })] and [readdirSync(dir)] *)
  readdirSync_withFileTypes : string -> World -> Result (list Dirent);
  readdirSync : string -> World -> Result (list string);
  (** [statSync(path)] *)
  statSync : string -> World -> Result FsStats;
  (** [a.localeCompare(b, 'en')] *)
  localeCompare : string -> string -> comparison;
  (** The paths below [cwd] that match a glob pattern, as the search of
      [glob] meets them *)
  glob_matches : string -> string -> World -> list string;
  (** [rmdirSync(path, { recursive })] *)
  rmdirSync : string -> bool -> World -> Result unit * World;
  (** [execSync(command, { cwd, stdio: ['ignore', 'ignore', 'inherit'] })]:
      throws when the process cannot be run or exits with a non-zero status *)
  execSync : string -> string -> World -> Result unit * World;
  (** [mkdirSync(path, { recursive })] *)
  mkdirSync : string -> bool -> World -> Result unit * World;
  (** [renameSync(oldPath, newPath)] *)
  renameSync : string -> string -> World -> Result unit * World;
  (** [copySync(src, dest, { recursive })] of fs-extra; the flag records whether
      the call passes [{ recursive: true }] *)
  copySync : string -> string -> bool -> World -> Result unit * World
}.

(** [globSync(pattern, { cwd })] of glob 7: without the [nosort] option the
    matches are returned sorted by [alphasort], which compares with
    [a.localeCompare(b, 'en')]. *)
Definition alphasort (E : NodeEnv) (a b : string) : comparison := localeCompare E a b.

Definition globSync (E : NodeEnv) (pattern cwd : string) (w : World E) : list string :=
  sort (alphasort E) (glob_matches E pattern cwd w).

(** ** recoverDirectories *)

Section RecoverDirectories.

Variable E : NodeEnv.
Variable w : World E.

(** The probe of one loop iteration:
    [isDirectory = false; try { isDirectory = statSync(resolve(cwd, res, segment)).isDirectory() } catch {}] *)
Definition probe (cwd res segment : string) : bool :=
  match statSync E (resolve E [cwd; res; segment]) w with
  | Ok st => isDirectory st
  | Thrown _ => false
  end.

Definition unexpected_exit : Error := new_Error "unexpected exit".

(** The [while (segments.length && i++ < 5)] loop.  [budget] is [5 - i], the
    number of iterations the counter still allows. *)
Fixpoint recoverDirectories_loop (cwd : string) (budget : nat) (res : string)
    (segments : list string) : Result string :=
  match segments, budget with
  | [], _ => Thrown unexpected_exit
  | _ :: _, O => Thrown unexpected_exit
  | segment :: segments, S budget =>
      if probe cwd res segment
      then recoverDirectories_loop cwd budget (res ++ segment ++ "/")%string segments
      else match segments with
           | s0 :: rest =>
               recoverDirectories_loop cwd budget res ((segment ++ "_" ++ s0)%string :: rest)
           | [] => Ok (res ++ segment)%string
           end
  end.

Definition recoverDirectories (cwd path : string) : Result string :=
  recoverDirectories_loop cwd 5 "./" (split "_" path).

End RecoverDirectories.

(** ** The script's effects *)

(** A call the script makes into the environment, as it would show in a
    trace of the run. *)
Inductive Call : Type :=
| call_readdirSync (path : string) (withFileTypes : bool)
| call_globSync (pattern cwd : string)
| call_rmdirSync (path : string) (recursive : bool)
| call_execSync (command cwd : string)
| call_mkdirSync (path : string) (recursive : bool)
| call_renameSync (oldPath newPath : string)
| call_copySync (src dest : string) (recursive : bool)
| call_console_log (text : string).

(** A trace entry: the call and, when it threw, what it threw. *)
Definition Logged : Type := (Call * option Error)%type.

Definition thrown_by {A} (r : Result A) : option Error :=
  match r with
  | Ok _ => None
  | Thrown e => Some e
  end.

Section Script.

Variable E : NodeEnv.

(** The state of a run: the world and the calls made so far, oldest first. *)
Record State : Type := mkState {
  world : World E;
  trace : list Logged
}.

(** A piece of the script: it runs from a state, returns or throws, and
    leaves a state.  An exception propagates through [bind]. *)
Definition Script (A : Type) : Type := State -> Result A * State.

Definition ret {A} (a : A) : Script A := fun s => (Ok a, s).

Definition throw {A} (e : Error) : Script A := fun s => (Thrown e, s).

Definition bind {A B} (m : Script A) (k : A -> Script B) : Script B :=
  fun s =>
    match m s with
    | (Ok a, s') => k a s'
    | (Thrown e, s') => (Thrown e, s')
    end.

(** [try { m } catch (e) { handler(e) }] *)
Definition try_catch {A} (m : Script A) (handler : Error -> Script A) : Script A :=
  fun s =>
    match m s with
    | (Ok a, s') => (Ok a, s')
    | (Thrown e, s') => handler e s'
    end.

(** A call that may change the world. *)
Definition effect (c : Call) (op : World E -> Result unit * World E) : Script unit :=
  fun s =>
    let '(r, w') := op (world s) in
    (r, mkState w' (trace s ++ [(c, thrown_by r)])).

(** A call that only reads the world. *)
Definition query {A} (c : Call) (op : World E -> Result A) : Script A :=
  fun s =>
    let r := op (world s) in
    (r, mkState (world s) (trace s ++ [(c, thrown_by r)])).

(** A pure function of the current world (the [statSync] probes). *)
Definition reading {A} (f : World E -> Result A) : Script A :=
  fun s => (f (world s), s).

End Script.

Arguments world {E} s.
Arguments trace {E} s.
Arguments mkState {E} world trace.
Arguments ret {E A} a.
Arguments throw {E A} e.
Arguments bind {E A B} m k.
Arguments try_catch {E A} m handler.
Arguments effect {E} c op.
Arguments query {E A} c op.
Arguments reading {E A} f.

Declare Scope script_scope.
Delimit Scope script_scope with script.
Notation "x <- m ;; k" := (bind m (fun x => k))
  (at level 61, m at next level, right associativity) : script_scope.
Notation "m ;; k" := (bind m (fun _ => k))
  (at level 61, right associativity) : script_scope.
Local Open Scope script_scope.

Section CompileContracts.

Variable E : NodeEnv.

Definition console_log (text : string) : Script E unit :=
  effect (call_console_log text) (fun w => (Ok tt, w)).

(** [for (const x of xs) body(x)] *)
Fixpoint for_of {A} (xs : list A) (body : A -> Script E unit) : Script E unit :=
  match xs with
  | [] => ret tt
  | x :: xs' => body x ;; for_of xs' body
  end.

(** [xs.map(f)] for an [f] that calls into the environment. *)
Fixpoint array_map {A B} (f : A -> Script E B) (xs : list A) : Script E (list B) :=
  match xs with
  | [] => ret []
  | x :: xs' => y <- f x ;; ys <- array_map f xs' ;; ret (y :: ys)
  end.

(** The record [findFiles] returns. *)
Record Files : Type := mkFiles {
  rootDir : string;
  contractsDir : string;
  outDir : string;
  contracts : list (string * list string);
  prebuiltAbis : list string
}.

Definition is_version_dir (d : Dirent) : bool :=
  dirent_isDirectory d && startsWith (dirent_name d) "v".

Definition findFiles : Script E Files :=
  let rootDir := resolve E [__dirname E; ".."] in
  let contractsDir := resolve E [rootDir; "contracts"] in
  let outDir := resolve E [contractsDir; "compiled"] in
  dirents <- query (call_readdirSync contractsDir true)
               (readdirSync_withFileTypes E contractsDir) ;;
  let solidityVersionDirs := filter is_version_dir dirents in
  pairs <- array_map
             (fun directory =>
                let version := dirent_name directory in
                let path := resolve E [contractsDir; version] in
                filePaths <- query (call_globSync "./**/*.sol" path)
                               (fun w => Ok (globSync E "./**/*.sol" path w)) ;;
                ret (version, filePaths))
             solidityVersionDirs ;;
  let contracts := new_Map pairs in
  prebuiltAbis <- query (call_globSync "**/*.json" contractsDir)
                    (fun w => Ok (globSync E "**/*.json" contractsDir w)) ;;
  ret (mkFiles rootDir contractsDir outDir contracts prebuiltAbis).

Definition removeOutDir (files : Files) : Script E unit :=
  console_log (bold E "Cleaning up contracts/abis") ;;
  try_catch
    (effect (call_rmdirSync (outDir files) true) (rmdirSync E (outDir files) true))
    (fun e =>
       if match code e with
          | Some c => negb (String.eqb c "ENOENT")
          | None => true
          end
       then throw e
       else ret tt).

(** [dirName.replace(/^v/, '^')] *)
Definition semver_of (dirName : string) : string :=
  match dirName with
  | String "v"%char rest => String "^"%char rest
  | _ => dirName
  end.

(** The command line of one compiler invocation. *)
Definition solc_command (dirName : string) (filePaths : list string) : string :=
  let semver := semver_of dirName in
  let contractPaths :=
    join " " (map (fun s => posix_join E ["contracts"; dirName; s]) filePaths) in
  ("pnpm --package solc@" ++ semver ++ " dlx solcjs --abi " ++ contractPaths
     ++ " --bin -o ./contracts/compiled/" ++ dirName)%string.

Definition generateABIs (files : Files) : Script E unit :=
  console_log (bold E "Generating ABIs") ;;
  for_of (entries (contracts files))
    (fun '(dirName, filePaths) =>
       let semver := semver_of dirName in
       console_log
         (bold E ("Compiling " ++ of_nat (List.length filePaths)
                    ++ " contracts with `pnpm dlx solc@" ++ semver ++ "`")%string) ;;
       effect (call_execSync (solc_command dirName filePaths) (rootDir files))
         (execSync E (solc_command dirName filePaths) (rootDir files))).

(** A value that may be [undefined], as array destructuring leaves it, and
    its rendering inside a template literal. *)
Definition template (v : option string) : string :=
  match v with
  | Some s => s
  | None => "undefined"
  end.

Definition undefined_split : Error :=
  TypeError "Cannot read properties of undefined (reading 'split')".

(** What the body of the renaming loop recovers from one output name before
    it touches the file system: the recovered [filePath], the [contractName]
    and the [extension]. *)
Definition parseOutputName (w : World E) (contractsDir version outputPath : string)
  : Result (string * option string * option string) :=
  let DIRECTORY_PREFIX := ("contracts_" ++ version ++ "_")%string in
  let relativePath := slice (String.length DIRECTORY_PREFIX) outputPath in
  let parts := split "_sol_" relativePath in
  let filePath := nth_error parts 0 in
  let contractName := nth_error parts 1 in
  match contractName with
  | None => Thrown undefined_split
  | Some contractName =>
      let parts := split "." contractName in
      let contractName := nth_error parts 0 in
      let extension := nth_error parts 1 in
      let contractsRootDir := (contractsDir ++ "/" ++ version)%string in
      match filePath with
      | None => Thrown undefined_split
      | Some filePath =>
          match recoverDirectories E w contractsRootDir filePath with
          | Ok filePath => Ok (filePath, contractName, extension)
          | Thrown e => Thrown e
          end
      end
  end.

Definition newline : string := String (ascii_of_nat 10) EmptyString.

(** [newNames.reduce((a, v, i) => (i % 2 === 0 ? a + '\n' + v : a + ' ' + v), '')] *)
Fixpoint reduce_names (i : nat) (a : string) (newNames : list string) : string :=
  match newNames with
  | [] => a
  | v :: rest =>
      reduce_names (S i)
        (if Nat.even i then a ++ newline ++ v else a ++ " " ++ v)%string rest
  end.

(** The inner loop of [renameOutputNames]; it returns [newNames]. *)
Fixpoint renameOutputs (files : Files) (version directory : string)
    (outputs newNames : list string) : Script E (list string) :=
  match outputs with
  | [] => ret newNames
  | outputPath :: outputs' =>
      parsed <- reading (fun w => parseOutputName w (contractsDir files) version outputPath) ;;
      let '(filePath, contractName, extension) := parsed in
      let newName := (filePath ++ "/" ++ template contractName ++ "."
                        ++ template extension)%string in
      let newNames := newNames ++ [newName] in
      effect (call_mkdirSync (resolve E [directory; filePath]) true)
        (mkdirSync E (resolve E [directory; filePath]) true) ;;
      effect (call_renameSync (resolve E [directory; outputPath]) (resolve E [directory; newName]))
        (renameSync E (resolve E [directory; outputPath]) (resolve E [directory; newName])) ;;
      renameOutputs files version directory outputs' newNames
  end.

Definition renameOutputNames (files : Files) : Script E unit :=
  console_log (bold E "Renaming ABIs") ;;
  for_of (keys (contracts files))
    (fun version =>
       let directory := resolve E [outDir files; version] in
       outputs <- query (call_readdirSync directory false) (readdirSync E directory) ;;
       newNames <- renameOutputs files version directory outputs [] ;;
       console_log
         ("Renamed " ++ bold E (of_nat (List.length newNames)) ++ " files in "
            ++ bold E version ++ ":"
            ++ brightItalic E (reduce_names 0 "" newNames))%string).

Definition copyTruffleV5 (files : Files) : Script E unit :=
  console_log (bold E "Copy truffle-v5 contracts") ;;
  let truffleV5ContractsDir :=
    resolve E [rootDir files; "packages/target-truffle-v5-test/contracts"] in
  let versions := ["v0.6.4"] in
  for_of versions
    (fun version =>
       effect (call_copySync (resolve E [contractsDir files; version])
                 (resolve E [truffleV5ContractsDir; version]) false)
         (copySync E (resolve E [contractsDir files; version])
            (resolve E [truffleV5ContractsDir; version]) false)).

(** The destination [copyPrebuiltABIs] computes for one prebuilt path. *)
Definition prebuilt_dest (files : Files) (filepath : string) : string :=
  resolve E [outDir files; replace ".json" ".abi" filepath].

Definition copyPrebuiltABIs (files : Files) : Script E unit :=
  for_of (prebuiltAbis files)
    (fun filepath =>
       effect (call_copySync (resolve E [contractsDir files; filepath])
                 (prebuilt_dest files filepath) true)
         (copySync E (resolve E [contractsDir files; filepath])
            (prebuilt_dest files filepath) true)).

Definition main : Script E unit :=
  files <- findFiles ;;
  removeOutDir files ;;
  generateABIs files ;;
  renameOutputNames files ;;
  copyTruffleV5 files ;;
  copyPrebuiltABIs files.

End CompileContracts.

(** ** A reference environment

    One concrete [NodeEnv]: an in-memory POSIX tree, with [path.resolve] and
    [path.posix.join] as Node documents them, and [glob], [fs] and [fs-extra]
    restricted to what the script asks of them.  The search of [glob] meets
    the matches in the order of the tree; [localeCompare] stands in for the
    [en] collation on ASCII names.  The compiler is a table from
    the output directory a command names to the files the compiler writes (or
    to its failure).  The general theorems below do not depend on it; it is
    used to run the script on concrete trees. *)

Module Ref.

Inductive Node : Type :=
| Dir
| File (content : string).

(** Absolute normalised path to node, in the order the nodes were created. *)
Definition Tree : Type := list (string * Node).

(** *** Paths *)

(** Resolution of [.], [..] and empty components; [stack] holds the
    components kept so far, innermost first.  With [above], a [..] that
    cannot be resolved is kept (relative paths). *)
Fixpoint normalize_parts (above : bool) (stack parts : list string) : list string :=
  match parts with
  | [] => rev stack
  | part :: parts' =>
      if String.eqb part "" || String.eqb part "." then normalize_parts above stack parts'
      else if String.eqb part ".." then
        match stack with
        | top :: stack' =>
            if String.eqb top ".."
            then normalize_parts above (part :: stack) parts'
            else normalize_parts above stack' parts'
        | [] =>
            if above then normalize_parts above [part] parts'
            else normalize_parts above [] parts'
        end
      else normalize_parts above (part :: stack) parts'
  end.

(** The process's working directory, used by [resolve] when no argument is
    absolute. *)
Definition process_cwd : string := "/".

(** [path.resolve]: arguments are prepended from the right until one is
    absolute; the result is normalised and has no trailing slash. *)
Fixpoint resolve_go (reversed : list string) (acc : string) : string :=
  match reversed with
  | [] => (process_cwd ++ "/" ++ acc)%string
  | a :: rest =>
      if String.eqb a "" then resolve_go rest acc
      else if startsWith a "/" then (a ++ "/" ++ acc)%string
      else resolve_go rest (a ++ "/" ++ acc)%string
  end.

Definition resolve (args : list string) : string :=
  ("/" ++ join "/" (normalize_parts false [] (split "/" (resolve_go (rev args) ""))))%string.

(** [path.posix.join]: the non-empty arguments joined by [/], normalised. *)
Definition posix_join (args : list string) : string :=
  let joined := join "/" (filter (fun a => negb (String.eqb a "")) args) in
  if String.eqb joined "" then "."
  else
    let absolute := startsWith joined "/" in
    let trailing := endsWith joined "/" in
    let body := join "/" (normalize_parts (negb absolute) [] (split "/" joined)) in
    if String.eqb body ""
    then (if absolute then "/" else if trailing then "./" else ".")
    else ((if absolute then "/" else "") ++ body ++ (if trailing then "/" else ""))%string.

(** *** The tree *)

Definition lookup (p : string) (t : Tree) : option Node :=
  match find (fun kv => String.eqb (fst kv) p) t with
  | Some kv => Some (snd kv)
  | None => None
  end.

(** The prefix every path strictly below [dir] starts with. *)
Definition below (dir : string) : string :=
  if String.eqb dir "/" then "/" else (dir ++ "/")%string.

Definition is_below (dir p : string) : bool :=
  startsWith p (below dir) && negb (String.eqb p dir).

Definition relative (dir p : string) : string := slice (String.length (below dir)) p.

Definition remove (p : string) (t : Tree) : Tree :=
  filter (fun kv => negb (String.eqb (fst kv) p)) t.

(** Create or overwrite the node at [p]. *)
Definition put (p : string) (n : Node) (t : Tree) : Tree :=
  match lookup p t with
  | Some _ => map (fun kv => if String.eqb (fst kv) p then (p, n) else kv) t
  | None => t ++ [(p, n)]
  end.

(** The absolute paths of [p]'s ancestors and of [p], outermost first. *)
Fixpoint chain (base : string) (parts : list string) : list string :=
  match parts with
  | [] => []
  | part :: parts' =>
      let next := (below base ++ part)%string in
      next :: chain next parts'
  end.

Definition ancestors_and_self (p : string) : list string :=
  chain "/" (normalize_parts false [] (split "/" p)).

Definition parent (p : string) : string :=
  resolve [p; ".."].

(** Node's description of an error code. *)
Definition describe (c : string) : string :=
  if String.eqb c "ENOENT" then "no such file or directory"
  else if String.eqb c "ENOTDIR" then "not a directory"
  else if String.eqb c "EEXIST" then "file already exists"
  else if String.eqb c "ENOTEMPTY" then "directory not empty"
  else "unknown error".

Definition system_error (c syscall p : string) : Error :=
  mkError "Error"
    (c ++ ": " ++ describe c ++ ", " ++ syscall ++ " '" ++ p ++ "'")%string (Some c).

(** [mkdir -p]: fails on a file in the way. *)
Fixpoint mkdirp (dirs : list string) (t : Tree) : Result unit * Tree :=
  match dirs with
  | [] => (Ok tt, t)
  | d :: dirs' =>
      match lookup d t with
      | Some Dir => mkdirp dirs' t
      | Some (File _) => (Thrown (system_error "EEXIST" "mkdir" d), t)
      | None => mkdirp dirs' (t ++ [(d, Dir)])
      end
  end.

Definition statSync (p : string) (t : Tree) : Result FsStats :=
  match lookup p t with
  | Some Dir => Ok (mkStats true)
  | Some (File _) => Ok (mkStats false)
  | None => Thrown (system_error "ENOENT" "stat" p)
  end.

Definition is_child (dir p : string) : bool :=
  is_below dir p && negb (includes "/" (relative dir p)).

Definition children (dir : string) (t : Tree) : list (string * Node) :=
  filter (fun kv => is_child dir (fst kv)) t.

Definition scandir (dir : string) (t : Tree) : Result (list (string * Node)) :=
  match lookup dir t with
  | Some Dir => Ok (children dir t)
  | Some (File _) => Thrown (system_error "ENOTDIR" "scandir" dir)
  | None => Thrown (system_error "ENOENT" "scandir" dir)
  end.

Definition readdirSync_withFileTypes (dir : string) (t : Tree) : Result (list Dirent) :=
  match scandir dir t with
  | Ok l =>
      Ok (map (fun kv => mkDirent (relative dir (fst kv))
                           (match snd kv with Dir => true | File _ => false end)) l)
  | Thrown e => Thrown e
  end.

Definition readdirSync (dir : string) (t : Tree) : Result (list string) :=
  match scandir dir t with
  | Ok l => Ok (map (fun kv => relative dir (fst kv)) l)
  | Thrown e => Thrown e
  end.

(** The two patterns of the script, [./**/*<ext>] and [**/*<ext>]: every
    node below [cwd] whose name ends in [ext], no component of whose relative
    path starts with a dot; in the order of the tree. *)
Definition hidden (rel : string) : bool :=
  existsb (fun part => startsWith part ".") (split "/" rel).

Definition glob_ext (ext cwd : string) (t : Tree) : list string :=
  map (fun kv => relative cwd (fst kv))
    (filter (fun kv => is_below cwd (fst kv)
                       && endsWith (fst kv) ext
                       && negb (hidden (relative cwd (fst kv)))) t).

Definition glob_matches (pattern cwd : string) (t : Tree) : list string :=
  if startsWith pattern "./**/*"
  then map (fun rel => ("./" ++ rel)%string) (glob_ext (slice 6 pattern) cwd t)
  else if startsWith pattern "**/*"
  then glob_ext (slice 4 pattern) cwd t
  else [].

Definition rmdirSync (p : string) (recursive : bool) (t : Tree) : Result unit * Tree :=
  match lookup p t with
  | None => (Thrown (system_error "ENOENT" "rmdir" p), t)
  | Some (File _) => (Thrown (system_error "ENOTDIR" "rmdir" p), t)
  | Some Dir =>
      if recursive
      then (Ok tt, filter (fun kv => negb (String.eqb (fst kv) p || is_below p (fst kv))) t)
      else if existsb (fun kv => is_below p (fst kv)) t
      then (Thrown (system_error "ENOTEMPTY" "rmdir" p), t)
      else (Ok tt, remove p t)
  end.

Definition mkdirSync (p : string) (recursive : bool) (t : Tree) : Result unit * Tree :=
  if recursive then mkdirp (ancestors_and_self p) t
  else
    match lookup p t, lookup (parent p) t with
    | Some _, _ => (Thrown (system_error "EEXIST" "mkdir" p), t)
    | None, Some Dir => (Ok tt, t ++ [(p, Dir)])
    | None, _ => (Thrown (system_error "ENOENT" "mkdir" p), t)
    end.

(** Move the node at [old], with everything below it, to [new]. *)
Definition renameSync (old new : string) (t : Tree) : Result unit * Tree :=
  match lookup old t, lookup (parent new) t with
  | None, _ => (Thrown (system_error "ENOENT" "rename" old), t)
  | Some _, Some Dir =>
      (Ok tt,
       map (fun kv =>
              if String.eqb (fst kv) old then (new, snd kv)
              else if is_below old (fst kv)
              then ((below new ++ relative old (fst kv))%string, snd kv)
              else kv)
         (if String.eqb old new then t else remove new t))
  | Some _, _ => (Thrown (system_error "ENOENT" "rename" new), t)
  end.

(** Write a file, creating the directories above it. *)
Definition write_file (p content : string) (t : Tree) : Result unit * Tree :=
  match mkdirp (ancestors_and_self (parent p)) t with
  | (Ok _, t') => (Ok tt, put p (File content) t')
  | (Thrown e, t') => (Thrown e, t')
  end.

Fixpoint copy_nodes (src dest : string) (nodes : list (string * Node)) (t : Tree)
  : Result unit * Tree :=
  match nodes with
  | [] => (Ok tt, t)
  | (p, n) :: nodes' =>
      let target := (below dest ++ relative src p)%string in
      match (match n with
             | Dir => mkdirp (ancestors_and_self target) t
             | File c => write_file target c t
             end) with
      | (Ok _, t') => copy_nodes src dest nodes' t'
      | (Thrown e, t') => (Thrown e, t')
      end
  end.

(** fs-extra's [copySync]: a missing source throws; a file is copied over
    the destination, whose parent directories are created; a directory is
    copied with everything below it. *)
Definition copySync (src dest : string) (recursive : bool) (t : Tree) : Result unit * Tree :=
  match lookup src t with
  | None => (Thrown (system_error "ENOENT" "stat" src), t)
  | Some (File c) => write_file dest c t
  | Some Dir =>
      match mkdirp (ancestors_and_self dest) t with
      | (Ok _, t') => copy_nodes src dest (filter (fun kv => is_below src (fst kv)) t) t'
      | (Thrown e, t') => (Thrown e, t')
      end
  end.

(** *** The compiler *)

(** What one invocation does: it fails, or writes files (path relative to
    the process's [cwd], content). *)
Definition Outcome : Type := option (list (string * string)).

(** The invocation is recognised by the output directory its command line
    ends with. *)
Definition Compiler : Type := list (string * Outcome).

Fixpoint write_files (cwd : string) (files : list (string * string)) (t : Tree)
  : Result unit * Tree :=
  match files with
  | [] => (Ok tt, t)
  | (p, c) :: files' =>
      match write_file (resolve [cwd; p]) c t with
      | (Ok _, t') => write_files cwd files' t'
      | (Thrown e, t') => (Thrown e, t')
      end
  end.

Definition command_failed (command : string) : Error :=
  mkError "Error" ("Command failed: " ++ command)%string None.

Definition execSync (solc : Compiler) (command cwd : string) (t : Tree) : Result unit * Tree :=
  match find (fun entry => endsWith command (" -o " ++ fst entry)%string) solc with
  | Some (_, Some files) => write_files cwd files t
  | _ => (Thrown (command_failed command), t)
  end.

(** *** The collation *)

(** Letters compare without regard to case first, and on a tie the lower
    case letter comes first; every other code unit compares by its code. *)
Definition lower_case (c : ascii) : ascii :=
  if Ascii.leb "A" c && Ascii.leb c "Z"
  then ascii_of_nat (nat_of_ascii c + 32)
  else c.

Fixpoint lower (s : string) : string :=
  match s with
  | EmptyString => EmptyString
  | String c s' => String (lower_case c) (lower s')
  end.

Definition localeCompare (a b : string) : comparison :=
  match String.compare (lower a) (lower b) with
  | Eq => String.compare b a
  | c => c
  end.

Definition env (dirname : string) (solc : Compiler) : NodeEnv :=
  mkEnv Tree dirname resolve posix_join (fun s => s) (fun s => s)
    readdirSync_withFileTypes readdirSync statSync localeCompare glob_matches
    rmdirSync (execSync solc) mkdirSync renameSync copySync.

(** Run a script on a tree, from an empty trace. *)
Definition run {A} (dirname : string) (solc : Compiler)
    (script : Script (env dirname solc) A) (t : Tree)
  : Result A * State (env dirname solc) :=
  script (@mkState (env dirname solc) t []).
Arguments run {A} dirname solc script t.

End Ref.

(** ** Vocabulary of the properties *)

Section Recovery.

Variable E : NodeEnv.
Variable w : World E.
Variable cwd : string.

(** The value of [res] after the directory segments [dirs] were committed
    onto [res]. *)
Definition committed (res : string) (dirs : list string) : string :=
  fold_left (fun res d => (res ++ d ++ "/")%string) dirs res.

(** Every segment of [dirs], probed below the segments before it, is an
    existing directory. *)
Fixpoint nested_dirs (res : string) (dirs : list string) : bool :=
  match dirs with
  | [] => true
  | d :: dirs' => probe E w cwd res d && nested_dirs (res ++ d ++ "/")%string dirs'
  end.

(** A configuration of the probing: the iterations left, the accumulated
    directory and the tokens not yet consumed. *)
Inductive Conf : Type :=
| conf (budget : nat) (res : string) (segments : list string).

(** One probe that does not end the recovery: the token is committed as a
    directory segment, or it is rejoined with the text after it. *)
Inductive probe_step : Conf -> Conf -> Prop :=
| step_commit : forall budget res token rest,
    probe E w cwd res token = true ->
    probe_step (conf (S budget) res (token :: rest))
               (conf budget (res ++ token ++ "/")%string rest)
| step_rejoin : forall budget res token next rest,
    probe E w cwd res token = false ->
    probe_step (conf (S budget) res (token :: next :: rest))
               (conf budget res ((token ++ "_" ++ next)%string :: rest)).

Inductive probe_steps : Conf -> Conf -> Prop :=
| steps_done : forall c, probe_steps c c
| steps_next : forall c1 c2 c3,
    probe_step c1 c2 -> probe_steps c2 c3 -> probe_steps c1 c3.

(** How the recovery ends: the last token is not a directory and is
    returned after the accumulated directory; or the budget or the tokens ran
    out. *)
Inductive probe_end : Conf -> Result string -> Prop :=
| end_filename : forall budget res token,
    probe E w cwd res token = false ->
    probe_end (conf (S budget) res [token]) (Ok (res ++ token)%string)
| end_budget : forall res token rest,
    probe_end (conf 0 res (token :: rest)) (Thrown unexpected_exit)
| end_tokens : forall budget res,
    probe_end (conf budget res []) (Thrown unexpected_exit).

(** The loop run from a configuration. *)
Definition loop_of (c : Conf) : Result string :=
  match c with
  | conf budget res segments => recoverDirectories_loop E w cwd budget res segments
  end.

(** The recovery as the specification words it, from the fragment [path]. *)
Definition probing_yields (path : string) (r : Result string) : Prop :=
  exists c, probe_steps (conf 5 "./" (split "_" path)) c /\ probe_end c r.

(** The candidates probed while the tokens [ts] are rejoined one by one
    onto [c], up to but not including the full segment. *)
Fixpoint rejoined_before (c : string) (ts : list string) : list string :=
  match ts with
  | [] => []
  | t :: ts' => c :: rejoined_before (c ++ "_" ++ t)%string ts'
  end.

(** The proper prefixes of a segment that end just before an underscore. *)
Definition underscore_prefixes (segment : string) : list string :=
  match split "_" segment with
  | [] => []
  | t :: ts => rejoined_before t ts
  end.

Definition none_is_dir (res : string) (candidates : list string) : bool :=
  forallb (fun c => negb (probe E w cwd res c)) candidates.

(** The path [dirs]/[stem] can be told from its flattened form: each
    directory segment exists below the ones before it and none of its
    underscore prefixes does; neither the stem nor an underscore prefix of it
    is an existing directory. *)
Fixpoint recoverable (res : string) (dirs : list string) (stem : string) : bool :=
  match dirs with
  | [] => none_is_dir res (underscore_prefixes stem ++ [stem])
  | d :: dirs' =>
      none_is_dir res (underscore_prefixes d) && probe E w cwd res d
      && recoverable (res ++ d ++ "/")%string dirs' stem
  end.

End Recovery.

(** The source path [dirs]/[stem].sol with the separators replaced by
    underscores and the extension dropped. *)
Definition flattened_path (dirs : list string) (stem : string) : string :=
  join "_" (dirs ++ [stem]).

(** The flattened artifact name
    [contracts_<version>_<flattened path>_sol_<InterfaceName>.<ext>]. *)
Definition artifact_name (version : string) (dirs : list string)
    (stem interfaceName ext : string) : string :=
  ("contracts_" ++ version ++ "_" ++ flattened_path dirs stem
     ++ "_sol_" ++ interfaceName ++ "." ++ ext)%string.

(** The components a relative path names, [.] and empty components
    dropped. *)
Definition components (p : string) : list string :=
  Ref.normalize_parts true [] (split "/" p).

(** A string without its last code unit. *)
Fixpoint but_last (s : string) : string :=
  match s with
  | EmptyString => EmptyString
  | String c EmptyString => EmptyString
  | String c s' => String c (but_last s')
  end.

(** The round trip as claimed: the parse of the artifact name gives back
    the directory of [dirs]/[stem].sol, the interface name and the extension. *)
Definition roundtrip_to_directory (E : NodeEnv) (w : World E)
    (contractsDir version : string) (dirs : list string)
    (stem interfaceName ext : string) : Prop :=
  exists filePath,
    parseOutputName E w contractsDir version
      (artifact_name version dirs stem interfaceName ext)
    = Ok (filePath, Some interfaceName, Some ext)
    /\ components filePath = dirs.

(** The claim for one path: of depth at most 4, with every prefix
    directory existing below the source root of the version. *)
Definition claimed_roundtrip (E : NodeEnv) (w : World E)
    (contractsDir version : string) (dirs : list string)
    (stem interfaceName ext : string) : Prop :=
  List.length dirs <= 4 ->
  nested_dirs E w (contractsDir ++ "/" ++ version) "./" dirs = true ->
  roundtrip_to_directory E w contractsDir version dirs stem interfaceName ext.

Section Runs.

Variable E : NodeEnv.

(** A state after further calls were logged. *)
Definition logged (s : State E) (l : list Logged) : State E :=
  mkState (world s) (trace s ++ l).

(** The contracts root [findFiles] computes. *)
Definition contractsDir_of : string :=
  resolve E [resolve E [__dirname E; ".."]; "contracts"].

(** The version group [findFiles] builds from a directory entry, and the
    search it logs for it. *)
Definition sources_of (w : World E) (d : Dirent) : string * list string :=
  (dirent_name d,
   globSync E "./**/*.sol" (resolve E [contractsDir_of; dirent_name d]) w).

Definition sources_call (d : Dirent) : Logged :=
  (call_globSync "./**/*.sol" (resolve E [contractsDir_of; dirent_name d]), None).

(** The steps of [main] after the output reset. *)
Definition after_reset (files : Files) : Script E unit :=
  generateABIs E files ;;
  renameOutputNames E files ;;
  copyTruffleV5 E files ;;
  copyPrebuiltABIs E files.

(** [e.code === 'ENOENT'] *)
Definition is_ENOENT (e : Error) : bool :=
  match code e with
  | Some c => String.eqb c "ENOENT"
  | None => false
  end.

(** The compiler invocation of one version group. *)
Definition invocation (files : Files) (group : string * list string) : Call :=
  call_execSync (solc_command E (fst group) (snd group)) (rootDir files).

(** The body of the loop of [generateABIs], and the line it logs. *)
Definition compile_group (files : Files) (group : string * list string) : Script E unit :=
  let '(dirName, filePaths) := group in
  let semver := semver_of dirName in
  console_log E
    (bold E ("Compiling " ++ of_nat (List.length filePaths)
               ++ " contracts with `pnpm dlx solc@" ++ semver ++ "`")%string) ;;
  effect (call_execSync (solc_command E dirName filePaths) (rootDir files))
    (execSync E (solc_command E dirName filePaths) (rootDir files)).

Definition compile_log (group : string * list string) : Logged :=
  (call_console_log
     (bold E ("Compiling " ++ of_nat (List.length (snd group))
                ++ " contracts with `pnpm dlx solc@" ++ semver_of (fst group) ++ "`")%string),
   None).

(** The world one invocation leaves. *)
Definition compiled (files : Files) (w : World E) (group : string * list string) : World E :=
  snd (execSync E (solc_command E (fst group) (snd group)) (rootDir files) w).

(** The copy [copyPrebuiltABIs] asks for one prebuilt path. *)
Definition copy_request (files : Files) (filepath : string) : Call :=
  call_copySync (resolve E [contractsDir files; filepath])
    (prebuilt_dest E files filepath) true.

(** The body of the loop of [copyPrebuiltABIs], and its trace entry when
    the copy succeeds. *)
Definition copy_prebuilt (files : Files) (filepath : string) : Script E unit :=
  effect (copy_request files filepath)
    (copySync E (resolve E [contractsDir files; filepath])
       (prebuilt_dest E files filepath) true).

Definition copied_ok (files : Files) (filepath : string) : Logged :=
  (copy_request files filepath, None).

End Runs.

Arguments logged {E} s l.

(** The compiler invocations of a trace, in order. *)
Definition invocations (tr : list Logged) : list Call :=
  filter (fun c => match c with call_execSync _ _ => true | _ => false end)
    (map fst tr).

(** The copies of a trace, in order. *)
Definition copies (tr : list Logged) : list Call :=
  filter (fun c => match c with call_copySync _ _ _ => true | _ => false end)
    (map fst tr).

(** What the calls of a trace threw. *)
Definition failures (tr : list Logged) : list Error :=
  flat_map (fun l => match snd l with Some e => [e] | None => [] end) tr.

(** Ascending order of code units. *)
Fixpoint lexicographic (l : list string) : bool :=
  match l with
  | a :: ((b :: _) as rest) => String.leb a b && lexicographic rest
  | _ => true
  end.

(** A list in the order of a comparator: no element is greater than the
    one after it. *)
Fixpoint ordered (compare : string -> string -> comparison) (l : list string) : bool :=
  match l with
  | a :: ((b :: _) as rest) =>
      match compare a b with
      | Gt => false
      | _ => ordered compare rest
      end
  | _ => true
  end.

(** ** Example trees *)

Module Example.

Import Ref.

(** The script lives in [<root>/scripts]. *)
Definition scripts : string := "/repo/scripts".

Definition repo : Tree :=
  [("/repo", Dir); ("/repo/scripts", Dir); ("/repo/packages", Dir);
   ("/repo/contracts", Dir)].

Definition no_compiler : Compiler := [].

(** [v0.8.9/issues/Issue552_Reproduction.sol] and [v0.8.9/utils/Math.sol]. *)
Definition nested : Tree :=
  repo ++
  [("/repo/contracts/v0.8.9", Dir);
   ("/repo/contracts/v0.8.9/issues", Dir);
   ("/repo/contracts/v0.8.9/issues/Issue552_Reproduction.sol", File "contract Issue552_Observer {}");
   ("/repo/contracts/v0.8.9/utils", Dir);
   ("/repo/contracts/v0.8.9/utils/Math.sol", File "library MathLib {}")].

(** Directories [a] and [a_b] side by side, and [a_b/Token.sol]. *)
Definition ambiguous : Tree :=
  repo ++
  [("/repo/contracts/v0.8.9", Dir);
   ("/repo/contracts/v0.8.9/a", Dir);
   ("/repo/contracts/v0.8.9/a_b", Dir);
   ("/repo/contracts/v0.8.9/a_b/Token.sol", File "contract Token {}")].

(** [lib/sol/Token.sol]: a directory named [sol]. *)
Definition marker_in_path : Tree :=
  repo ++
  [("/repo/contracts/v0.8.9", Dir);
   ("/repo/contracts/v0.8.9/lib", Dir);
   ("/repo/contracts/v0.8.9/lib/sol", Dir);
   ("/repo/contracts/v0.8.9/lib/sol/Token.sol", File "contract Token {}")].

(** [utils/Math.sol] next to a directory [utils/Math]. *)
Definition stem_is_directory : Tree :=
  repo ++
  [("/repo/contracts/v0.8.9", Dir);
   ("/repo/contracts/v0.8.9/utils", Dir);
   ("/repo/contracts/v0.8.9/utils/Math", Dir);
   ("/repo/contracts/v0.8.9/utils/Math.sol", File "library MathLib {}")].

(** [my_long_dir_name/Big_Token.sol]: depth one, six tokens. *)
Definition long_names : Tree :=
  repo ++
  [("/repo/contracts/v0.8.9", Dir);
   ("/repo/contracts/v0.8.9/my_long_dir_name", Dir);
   ("/repo/contracts/v0.8.9/my_long_dir_name/Big_Token.sol", File "contract Big_Token {}")].

(** [a/b/c/d/e/f/Deep.sol]: six directories above the file. *)
Definition deep : Tree :=
  repo ++
  [("/repo/contracts/v0.8.9", Dir);
   ("/repo/contracts/v0.8.9/a", Dir);
   ("/repo/contracts/v0.8.9/a/b", Dir);
   ("/repo/contracts/v0.8.9/a/b/c", Dir);
   ("/repo/contracts/v0.8.9/a/b/c/d", Dir);
   ("/repo/contracts/v0.8.9/a/b/c/d/e", Dir);
   ("/repo/contracts/v0.8.9/a/b/c/d/e/f", Dir);
   ("/repo/contracts/v0.8.9/a/b/c/d/e/f/Deep.sol", File "contract Deep {}")].

(** [a/b] with nothing but directories: the fragment [a_b] names no file. *)
Definition only_dirs : Tree :=
  repo ++
  [("/repo/contracts/v0.8.9", Dir);
   ("/repo/contracts/v0.8.9/a", Dir);
   ("/repo/contracts/v0.8.9/a/b", Dir)].

(** One version group, [v0.6.4/A.sol], and a compiler for it. *)
Definition one_version : Tree :=
  repo ++
  [("/repo/contracts/v0.6.4", Dir);
   ("/repo/contracts/v0.6.4/A.sol", File "contract A {}")].

Definition solc_v064 : Compiler :=
  [("./contracts/compiled/v0.6.4",
    Some [("./contracts/compiled/v0.6.4/contracts_v0_6_4_A_sol_A.abi", "[]");
          ("./contracts/compiled/v0.6.4/contracts_v0_6_4_A_sol_A.bin", "6080")])].

(** The output directory is in the way as a file. *)
Definition compiled_is_file : Tree :=
  one_version ++ [("/repo/contracts/compiled", File "")].

(** Two version groups; the compiler of the first one fails. *)
Definition two_versions : Tree :=
  one_version ++
  [("/repo/contracts/v0.8.9", Dir);
   ("/repo/contracts/v0.8.9/B.sol", File "contract B {}")].

Definition solc_v089 : Compiler :=
  [("./contracts/compiled/v0.8.9",
    Some [("./contracts/compiled/v0.8.9/contracts_v0_8_9_B_sol_B.abi", "[]");
          ("./contracts/compiled/v0.8.9/contracts_v0_8_9_B_sol_B.bin", "6080")])].

Definition solc_fails_first : Compiler :=
  ("./contracts/compiled/v0.6.4", None) :: solc_v089.

Definition files_two_versions : Files :=
  mkFiles "/repo" "/repo/contracts" "/repo/contracts/compiled"
    [("v0.6.4", ["./A.sol"]); ("v0.8.9", ["./B.sol"])] [].

(** Entries of the contracts root that are not version groups: a directory
    [legacy], a file [v-notes.txt]. *)
Definition mixed_entries : Tree :=
  one_version ++
  [("/repo/contracts/legacy", Dir);
   ("/repo/contracts/legacy/Old.json", File "[]");
   ("/repo/contracts/v-notes.txt", File "")].

(** Sources that the search meets as [a.sol], [B.sol], and as [b.sol],
    [a.sol]. *)
Definition mixed_case : Tree :=
  repo ++
  [("/repo/contracts/v0.8.9", Dir);
   ("/repo/contracts/v0.8.9/a.sol", File "contract a {}");
   ("/repo/contracts/v0.8.9/B.sol", File "contract B {}")].

Definition unsorted : Tree :=
  repo ++
  [("/repo/contracts/v0.8.9", Dir);
   ("/repo/contracts/v0.8.9/b.sol", File "contract b {}");
   ("/repo/contracts/v0.8.9/a.sol", File "contract a {}")].

(** A prebuilt ABI in a directory whose name contains [.json]. *)
Definition json_in_directory_name : Tree :=
  repo ++
  [("/repo/contracts/abis.jsons", Dir);
   ("/repo/contracts/abis.jsons/Old.json", File "[]");
   ("/repo/contracts/v0.6.4", Dir);
   ("/repo/contracts/v0.6.4/A.sol", File "contract A {}")].

(** A [.json] file left in the output directory, and a prebuilt ABI. *)
Definition stale_output : Tree :=
  one_version ++
  [("/repo/contracts/compiled", Dir);
   ("/repo/contracts/compiled/stale.json", File "[]");
   ("/repo/contracts/legacy", Dir);
   ("/repo/contracts/legacy/Old.json", File "[1]")].

(** The nodes below the output directory. *)
Definition output_tree (t : Tree) : Tree :=
  filter (fun kv => is_below "/repo/contracts/compiled" (fst kv)) t.

(** The nodes below the contracts root that are not below the output
    directory. *)
Definition source_tree (t : Tree) : Tree :=
  filter (fun kv => is_below "/repo/contracts" (fst kv)
                    && negb (String.eqb (fst kv) "/repo/contracts/compiled")
                    && negb (is_below "/repo/contracts/compiled" (fst kv))) t.

(** The claim about a [.json] file found below the output directory: the
    file the run started with at [filepath] below the contracts root is, after
    the run, below the output directory under the name with [.abi]. *)
Definition copied_back (before after : Tree) (filepath : string) : Prop :=
  exists content,
    lookup ("/repo/contracts/" ++ filepath) before = Some (File content)
    /\ lookup ("/repo/contracts/compiled/" ++ replace ".json" ".abi" filepath) after
       = Some (File content).

(** The environments of the examples, and the state a run starts from. *)
Definition E0 : NodeEnv := env scripts no_compiler.
Definition E1 : NodeEnv := env scripts solc_v064.
Definition E2 : NodeEnv := env scripts solc_fails_first.

Definition start (E : NodeEnv) (t : World E) : State E := mkState t [].

(** What [findFiles] returns on [one_version]. *)
Definition files_one_version : Files :=
  mkFiles "/repo" "/repo/contracts" "/repo/contracts/compiled"
    [("v0.6.4", ["./A.sol"])] [].

(** The error of removing an output directory that does not exist. *)
Definition no_output_directory : Error :=
  system_error "ENOENT" "rmdir" "/repo/contracts/compiled".

(** The tree a run of [main] leaves. *)
Definition tree_after (solc : Compiler) (t : Tree) : Tree :=
  world (snd (run scripts solc (main (env scripts solc)) t)).

End Example.

(** ** Vocabulary of the further properties *)



(** Every call a script adds to the trace satisfies [Q]; with [ok_only],
    on the runs that return. *)
Definition emits {E : NodeEnv} {A} (ok_only : bool) (Q : Logged -> Prop)
    (m : Script E A) : Prop :=
  forall s r s',
    m s = (r, s') ->
    (ok_only = true -> thrown_by r = None) ->
    exists added, trace s' = trace s ++ added /\ Forall Q added.



Definition is_rmdir (c : Call) : bool :=
  match c with call_rmdirSync _ _ => true | _ => false end.

(** The directory removals of a trace, in order. *)
Definition removals (tr : list Logged) : list Call := filter is_rmdir (map fst tr).





(** ** Further example trees *)

Module Scenario.

Import Ref Example.

(** A checkout without a contracts root. *)
Definition no_contracts : Tree :=
  [("/repo", Dir); ("/repo/scripts", Dir)].

(** [one_version] after its compiler has run. *)
Definition compiled_outputs : Tree :=
  one_version ++
  [("/repo/contracts/compiled", Dir);
   ("/repo/contracts/compiled/v0.6.4", Dir);
   ("/repo/contracts/compiled/v0.6.4/contracts_v0_6_4_A_sol_A.abi", File "[]");
   ("/repo/contracts/compiled/v0.6.4/contracts_v0_6_4_A_sol_A.bin", File "6080")].

Definition listing_failed : Error :=
  system_error "ENOENT" "scandir" "/repo/contracts".

End Scenario.

(** * Properties *)

(** ** Strings *)

Lemma append_nil_r (s : string) : (s ++ "")%string = s.
Proof. induction s as [|c s IH]; simpl; [reflexivity | now rewrite IH]. Qed.

Lemma append_assoc (a b c : string) : ((a ++ b) ++ c)%string = (a ++ b ++ c)%string.
Proof. induction a as [|x a IH]; simpl; [reflexivity | now rewrite IH]. Qed.

Lemma length_append (a b : string) :
  String.length (a ++ b) = String.length a + String.length b.
Proof. induction a as [|x a IH]; simpl; [reflexivity | now rewrite IH]. Qed.

Lemma slice_append (a b : string) : slice (String.length a) (a ++ b) = b.
Proof. induction a as [|x a IH]; simpl; [reflexivity | exact IH]. Qed.

Lemma prefix_empty (s : string) : String.prefix "" s = true.
Proof. now destruct s. Qed.

Lemma prefix_append (p b : string) : String.prefix p (p ++ b) = true.
Proof.
  induction p as [|x p IH]; simpl; [apply prefix_empty |].
  destruct (ascii_dec x x) as [_|ne]; [exact IH | now elim ne].
Qed.

(** A prefix test only reads as many code units as the prefix has. *)
Lemma prefix_short (p u v : string) :
  String.length p <= String.length u ->
  String.prefix p (u ++ v) = String.prefix p u.
Proof.
  revert u; induction p as [|x p IH]; intros u Hlen; [now rewrite !prefix_empty |].
  destruct u as [|y u]; simpl in *; [lia |].
  destruct (ascii_dec x y); [apply IH; lia | reflexivity].
Qed.

Lemma but_last_length (s : string) : String.length (but_last s) = String.length s - 1.
Proof.
  induction s as [|c s IH]; [reflexivity |].
  destruct s as [|d s]; [reflexivity |].
  change (but_last (String c (String d s))) with (String c (but_last (String d s))).
  simpl String.length in *. rewrite IH. lia.
Qed.

Lemma but_last_snoc (s : string) :
  s <> EmptyString -> exists c, s = (but_last s ++ String c "")%string.
Proof.
  induction s as [|c s IH]; intros Hne; [now elim Hne |].
  destruct s as [|d s]; [now exists c |].
  destruct IH as [z Hz]; [discriminate |].
  exists z.
  change (String c (String d s)
          = String c (but_last (String d s) ++ String z "")%string).
  f_equal. exact Hz.
Qed.

(** ** [split] *)

Lemma split_go_not_nil sep skip acc s : split_go sep skip acc s <> [].
Proof.
  revert skip acc; induction s as [|c s IH]; intros skip acc; cbn [split_go];
    [discriminate |].
  destruct skip; [|apply IH].
  destruct (String.prefix sep (String c s)); [discriminate | apply IH].
Qed.

(** Passing over the rest of a separator. *)
Lemma split_go_skip sep x acc b :
  split_go sep (String.length x) acc (x ++ b) = split_go sep 0 acc b.
Proof.
  induction x as [|c x IH]; simpl; [reflexivity | exact IH].
Qed.

(** Without an occurrence of the separator there is one piece. *)
Lemma split_go_none sep acc s :
  includes sep s = false -> split_go sep 0 acc s = [(acc ++ s)%string].
Proof.
  revert acc; induction s as [|c s IH]; intros acc H.
  - simpl. now rewrite append_nil_r.
  - cbn [includes] in H. apply orb_false_iff in H as [Hp Hi].
    cbn [split_go]. rewrite Hp, (IH _ Hi), append_assoc. reflexivity.
Qed.

(** The first occurrence of the separator: no occurrence starts inside
    [a]. *)
Lemma split_go_cons sep acc c s :
  split_go sep 0 acc (String c s)
  = if String.prefix sep (String c s)
    then acc :: split_go sep (String.length sep - 1) "" s
    else split_go sep 0 (acc ++ String c "")%string s.
Proof. reflexivity. Qed.

Lemma split_go_first sep acc a b :
  sep <> EmptyString ->
  includes sep (a ++ but_last sep) = false ->
  split_go sep 0 acc (a ++ sep ++ b) = (acc ++ a)%string :: split sep b.
Proof.
  intros Hne; revert acc; induction a as [|c a IH]; intros acc H.
  - rewrite append_nil_r.
    destruct sep as [|x sep]; [now elim Hne |].
    change ("" ++ String x sep ++ b)%string with (String x (sep ++ b)).
    rewrite split_go_cons.
    change (String x (sep ++ b)) with (String x sep ++ b)%string at 1.
    rewrite prefix_append.
    replace (String.length (String x sep) - 1) with (String.length sep)
      by (simpl; lia).
    now rewrite split_go_skip.
  - destruct (but_last_snoc sep Hne) as [z Hz].
    assert (Hp : String.prefix sep (String c (a ++ sep ++ b)) = false).
    { change (String c (a ++ sep ++ b)) with (String c a ++ sep ++ b)%string.
      rewrite Hz at 2. rewrite append_assoc, <- (append_assoc (String c a)).
      rewrite prefix_short.
      - cbn [includes append] in H. apply orb_false_iff in H as [Hp _]. exact Hp.
      - rewrite length_append, but_last_length. simpl. lia. }
    cbn [includes append] in H. apply orb_false_iff in H as [_ Hi].
    change (String c a ++ sep ++ b)%string with (String c (a ++ sep ++ b)).
    rewrite split_go_cons, Hp, (IH _ Hi), append_assoc. reflexivity.
Qed.

Lemma split_first sep a b :
  sep <> EmptyString ->
  includes sep (a ++ but_last sep) = false ->
  split sep (a ++ sep ++ b) = a :: split sep b.
Proof. intros; unfold split at 1; now rewrite split_go_first. Qed.

Lemma prefix_char x c s : String.prefix (String x "") (String c s) = Ascii.eqb x c.
Proof.
  cbn [String.prefix]. destruct (ascii_dec x c) as [->|ne].
  - now rewrite prefix_empty, Ascii.eqb_refl.
  - symmetry. now apply Ascii.eqb_neq.
Qed.

(** Splitting at underscores distributes over a join with an underscore. *)
Lemma split_go_underscore acc a b :
  split_go "_" 0 acc (a ++ "_" ++ b) = split_go "_" 0 acc a ++ split "_" b.
Proof.
  revert acc; induction a as [|c a IH]; intros acc.
  - change ("" ++ "_" ++ b)%string with (String "_" b).
    now rewrite split_go_cons, prefix_char.
  - change (String c a ++ "_" ++ b)%string with (String c (a ++ "_" ++ b)).
    rewrite !split_go_cons, !prefix_char.
    destruct (Ascii.eqb "_" c); rewrite IH; reflexivity.
Qed.

Lemma split_underscore a b :
  split "_" (a ++ "_" ++ b) = split "_" a ++ split "_" b.
Proof. apply split_go_underscore. Qed.

Lemma join_cons sep x l :
  l <> [] -> join sep (x :: l) = (x ++ sep ++ join sep l)%string.
Proof. destruct l; [now intros H; elim H | reflexivity]. Qed.

Lemma join_split_go acc s : join "_" (split_go "_" 0 acc s) = (acc ++ s)%string.
Proof.
  revert acc; induction s as [|c s IH]; intros acc.
  - simpl. now rewrite append_nil_r.
  - rewrite split_go_cons, prefix_char.
    destruct (Ascii.eqb "_" c) eqn:Hc.
    + apply Ascii.eqb_eq in Hc as <-.
      rewrite join_cons by apply split_go_not_nil.
      rewrite IH. reflexivity.
    + rewrite IH, append_assoc. reflexivity.
Qed.

(** Joining the tokens of a text gives the text back. *)
Lemma join_split s : join "_" (split "_" s) = s.
Proof. apply join_split_go. Qed.

Lemma split_join (l : list string) :
  l <> [] -> split "_" (join "_" l) = concat (map (split "_") l).
Proof.
  induction l as [|x l IH]; intros Hne; [now elim Hne |].
  destruct l as [|y l].
  - simpl. now rewrite app_nil_r.
  - rewrite join_cons by discriminate.
    rewrite split_underscore, IH by discriminate. reflexivity.
Qed.

Lemma split_length_pos sep s : 1 <= List.length (split sep s).
Proof.
  pose proof (@split_go_not_nil sep 0 "" s) as H. unfold split.
  destruct (split_go sep 0 "" s); [now elim H | simpl; lia].
Qed.

(** A flattened path has at least as many tokens as the path has
    segments. *)
Lemma tokens_at_least (l : list string) :
  l <> [] -> List.length l <= List.length (split "_" (join "_" l)).
Proof.
  intros Hne. rewrite split_join by exact Hne. clear Hne.
  induction l as [|x l IH]; simpl; [lia |].
  rewrite length_app. pose proof (split_length_pos "_" x). lia.
Qed.

(** ** [recoverDirectories] *)

Section RecoveryFacts.

Variable E : NodeEnv.
Variable w : World E.
Variable cwd : string.

Local Abbreviation loop := (recoverDirectories_loop E w cwd).
Local Abbreviation probes := (probe E w cwd).
Local Abbreviation run_from := (loop_of E w cwd).

Lemma loop_nil budget res : loop budget res [] = Thrown unexpected_exit.
Proof. now destruct budget. Qed.

Lemma loop_zero res segments : loop 0 res segments = Thrown unexpected_exit.
Proof. now destruct segments. Qed.

(** One iteration, by the outcome of its probe. *)
Lemma loop_commit budget res segment segments :
  probes res segment = true ->
  loop (S budget) res (segment :: segments)
  = loop budget (res ++ segment ++ "/")%string segments.
Proof. intros H; cbn [recoverDirectories_loop]; now rewrite H. Qed.

Lemma loop_rejoin budget res segment next rest :
  probes res segment = false ->
  loop (S budget) res (segment :: next :: rest)
  = loop budget res ((segment ++ "_" ++ next)%string :: rest).
Proof. intros H; cbn [recoverDirectories_loop]; now rewrite H. Qed.

Lemma loop_return budget res segment :
  probes res segment = false ->
  loop (S budget) res [segment] = Ok (res ++ segment)%string.
Proof. intros H; cbn [recoverDirectories_loop]; now rewrite H. Qed.

(** Every iteration consumes one token: more tokens than iterations end in
    the throw after the loop. *)
Lemma loop_over_budget budget :
  forall res segments,
    budget < List.length segments ->
    loop budget res segments = Thrown unexpected_exit.
Proof.
  induction budget as [|budget IH]; intros res segments Hlen.
  - apply loop_zero.
  - destruct segments as [|segment rest]; [apply loop_nil |].
    simpl in Hlen.
    destruct (probes res segment) eqn:Hp.
    + rewrite loop_commit by exact Hp. apply IH. lia.
    + destruct rest as [|next rest]; [simpl in Hlen; lia |].
      rewrite loop_rejoin by exact Hp. apply IH. simpl in *. lia.
Qed.

(** Tokens that all commit leave nothing to return. *)
Lemma loop_all_dirs segments :
  forall budget res,
    nested_dirs E w cwd res segments = true ->
    loop budget res segments = Thrown unexpected_exit.
Proof.
  induction segments as [|segment rest IH]; intros budget res H.
  - apply loop_nil.
  - destruct budget as [|budget]; [apply loop_zero |].
    cbn [nested_dirs] in H. apply andb_true_iff in H as [Hp Hrest].
    rewrite loop_commit by exact Hp. now apply IH.
Qed.

Lemma join_rejoin segment next rest :
  join "_" (segment :: next :: rest)
  = join "_" ((segment ++ "_" ++ next)%string :: rest).
Proof.
  destruct rest as [|x rest]; [reflexivity |].
  rewrite (join_cons "_" segment), (join_cons "_" next) by discriminate.
  rewrite (join_cons "_" (segment ++ "_" ++ next)) by discriminate.
  now rewrite !append_assoc.
Qed.

(** What a returned path is made of. *)
Lemma loop_returns budget :
  forall res segments r,
    loop budget res segments = Ok r ->
    exists dirs segment,
      r = (committed res dirs ++ segment)%string
      /\ probes (committed res dirs) segment = false
      /\ nested_dirs E w cwd res dirs = true
      /\ join "_" segments = join "_" (dirs ++ [segment]).
Proof.
  induction budget as [|budget IH]; intros res segments r H.
  - now rewrite loop_zero in H.
  - destruct segments as [|segment rest]; [now rewrite loop_nil in H |].
    destruct (probes res segment) eqn:Hp.
    + rewrite loop_commit in H by exact Hp.
      destruct rest as [|next rest]; [now rewrite loop_nil in H |].
      destruct (IH _ _ _ H) as (dirs & last & Hr & Hlast & Hdirs & Hjoin).
      exists (segment :: dirs), last. repeat split.
      * exact Hr.
      * exact Hlast.
      * cbn [nested_dirs]. now rewrite Hp, Hdirs.
      * rewrite join_cons by discriminate.
        change ((segment :: dirs) ++ [last]) with (segment :: (dirs ++ [last])).
        rewrite (join_cons "_" segment (dirs ++ [last]))
          by (destruct dirs; simpl; discriminate).
        now rewrite Hjoin.
    + destruct rest as [|next rest].
      * rewrite loop_return in H by exact Hp. injection H as <-.
        exists [], segment. repeat split. exact Hp.
      * rewrite loop_rejoin in H by exact Hp.
        destruct (IH _ _ _ H) as (dirs & last & Hr & Hlast & Hdirs & Hjoin).
        exists dirs, last. repeat split; try assumption.
        now rewrite join_rejoin.
Qed.

(** The relation of the specification and the loop agree step by step. *)
Lemma probe_step_loop c1 c2 : probe_step E w cwd c1 c2 -> run_from c1 = run_from c2.
Proof.
  intros [budget res token rest Hp | budget res token next rest Hp]; unfold loop_of.
  - now apply loop_commit.
  - now apply loop_rejoin.
Qed.

Lemma probe_steps_loop c1 c2 : probe_steps E w cwd c1 c2 -> run_from c1 = run_from c2.
Proof.
  induction 1 as [c | c1 c2 c3 Hstep _ IH]; [reflexivity |].
  now rewrite (probe_step_loop _ _ Hstep).
Qed.

Lemma probe_end_loop c r : probe_end E w cwd c r -> run_from c = r.
Proof.
  intros [budget res token Hp | res token rest | budget res]; unfold loop_of.
  - now apply loop_return.
  - apply loop_zero.
  - apply loop_nil.
Qed.

Lemma loop_probes budget :
  forall res segments,
    exists c, probe_steps E w cwd (conf budget res segments) c
              /\ probe_end E w cwd c (loop budget res segments).
Proof.
  induction budget as [|budget IH]; intros res segments.
  - exists (conf 0 res segments). split; [constructor |].
    rewrite loop_zero. destruct segments; constructor.
  - destruct segments as [|segment rest].
    { exists (conf (S budget) res []). split; [constructor |].
      rewrite loop_nil. constructor. }
    destruct (probes res segment) eqn:Hp.
    + destruct (IH (res ++ segment ++ "/")%string rest) as (c & Hsteps & Hend).
      exists c. split.
      * eapply steps_next; [now apply step_commit | exact Hsteps].
      * now rewrite loop_commit.
    + destruct rest as [|next rest].
      * exists (conf (S budget) res [segment]). split; [constructor |].
        rewrite loop_return by exact Hp. now constructor.
      * destruct (IH res ((segment ++ "_" ++ next)%string :: rest)) as (c & Hsteps & Hend).
        exists c. split.
        -- eapply steps_next; [now apply step_rejoin | exact Hsteps].
        -- now rewrite loop_rejoin.
Qed.

End RecoveryFacts.

(** C2. [recoverDirectories] follows the probing steps of the
    specification: from the tokens of the fragment, with five probes
    allowed, a token that is an existing directory is committed, a token that
    is not is rejoined with an underscore to the text after it and the
    probing continues with one probe fewer, and a last token that is not a
    directory is returned after the accumulated directory.  The function's
    result is exactly the outcome of these steps.  (A commit uses a probe as
    well.) *)
Theorem recoverDirectories_follows_probing :
  forall (E : NodeEnv) (w : World E) (cwd path : string) (r : Result string),
    recoverDirectories E w cwd path = r <-> probing_yields E w cwd path r.
Proof.
  intros E w cwd path r. unfold recoverDirectories, probing_yields. split.
  - intros <-. apply loop_probes.
  - intros (c & Hsteps & Hend).
    apply probe_steps_loop in Hsteps. apply probe_end_loop in Hend.
    exact (eq_trans Hsteps Hend).
Qed.

(** C3. A flattened fragment with six nested directory segments, each an
    existing directory, before the filename makes [recoverDirectories] throw:
    its five probes are used up while tokens remain, and no path is
    returned. *)
Theorem recoverDirectories_depth_six_throws :
  forall (E : NodeEnv) (w : World E) (cwd : string) (dirs : list string) (stem : string),
    List.length dirs = 6 ->
    nested_dirs E w cwd "./" dirs = true ->
    recoverDirectories E w cwd (flattened_path dirs stem) = Thrown unexpected_exit.
Proof.
  intros E w cwd dirs stem Hlen _.
  unfold recoverDirectories, flattened_path.
  apply loop_over_budget.
  pose proof (tokens_at_least (dirs ++ [stem])) as H.
  rewrite length_app in H. simpl in H.
  assert (dirs ++ [stem] <> []) by (destruct dirs; simpl; discriminate).
  specialize (H ltac:(assumption)). lia.
Qed.

(** C9. When every token of the fragment, the last included, names an
    existing directory, [recoverDirectories] throws; and a path it returns
    is the committed directories followed by a segment that was probed and
    found not to be a directory, so it is never a directory-only path. *)
Theorem recoverDirectories_never_directory_only :
  forall (E : NodeEnv) (w : World E) (cwd path : string),
    (nested_dirs E w cwd "./" (split "_" path) = true ->
     recoverDirectories E w cwd path = Thrown unexpected_exit)
    /\ (forall r,
          recoverDirectories E w cwd path = Ok r ->
          exists dirs segment,
            r = (committed "./" dirs ++ segment)%string
            /\ probe E w cwd (committed "./" dirs) segment = false
            /\ nested_dirs E w cwd "./" dirs = true
            /\ path = join "_" (dirs ++ [segment])).
Proof.
  intros E w cwd path. split.
  - apply loop_all_dirs.
  - intros r H. apply loop_returns in H as (dirs & segment & Hr & Hp & Hd & Hj).
    exists dirs, segment. rewrite join_split in Hj. now repeat split.
Qed.

(** ** The round trip through the artifact name *)

Section RoundTrip.

Variable E : NodeEnv.
Variable w : World E.
Variable cwd : string.

Local Abbreviation loop := (recoverDirectories_loop E w cwd).
Local Abbreviation probes := (probe E w cwd).

(** A directory segment spread over the tokens [c :: ts] is committed after
    its underscore prefixes were probed and rejoined. *)
Lemma loop_directory ts :
  forall c budget res more,
    none_is_dir E w cwd res (rejoined_before c ts) = true ->
    probes res (join "_" (c :: ts)) = true ->
    List.length ts < budget ->
    loop budget res (c :: ts ++ more)
    = loop (budget - S (List.length ts))
        (res ++ join "_" (c :: ts) ++ "/")%string more.
Proof.
  induction ts as [|t ts IH]; intros c budget res more Hnone Hdir Hlen;
    (destruct budget as [|budget]; [simpl in Hlen; lia |]).
  - simpl. rewrite Nat.sub_0_r. now apply loop_commit.
  - cbn [rejoined_before none_is_dir forallb] in Hnone.
    apply andb_true_iff in Hnone as [Hc Hnone]. apply negb_true_iff in Hc.
    change ((t :: ts) ++ more) with (t :: ts ++ more).
    rewrite loop_rejoin by exact Hc.
    rewrite join_rejoin in Hdir |- *.
    rewrite IH; [reflexivity | exact Hnone | exact Hdir | simpl in Hlen; lia].
Qed.

(** The stem spread over the tokens [c :: ts] is returned when neither it
    nor an underscore prefix of it is a directory. *)
Lemma loop_stem ts :
  forall c budget res,
    none_is_dir E w cwd res (rejoined_before c ts ++ [join "_" (c :: ts)]) = true ->
    List.length ts < budget ->
    loop budget res (c :: ts) = Ok (res ++ join "_" (c :: ts))%string.
Proof.
  induction ts as [|t ts IH]; intros c budget res Hnone Hlen;
    (destruct budget as [|budget]; [simpl in Hlen; lia |]);
    cbn [rejoined_before app none_is_dir forallb] in Hnone;
    apply andb_true_iff in Hnone as [Hc Hnone]; apply negb_true_iff in Hc.
  - now apply loop_return.
  - rewrite loop_rejoin by exact Hc. rewrite join_rejoin in Hnone |- *.
    apply IH; [exact Hnone | simpl in Hlen; lia].
Qed.

Lemma underscore_prefixes_tokens segment :
  exists t ts,
    split "_" segment = t :: ts
    /\ underscore_prefixes segment = rejoined_before t ts
    /\ join "_" (t :: ts) = segment.
Proof.
  unfold underscore_prefixes. pose proof (join_split segment) as Hj.
  destruct (split "_" segment) as [|t ts] eqn:Hs.
  - now elim (split_go_not_nil "_" 0 "" segment).
  - now exists t, ts.
Qed.

Lemma loop_recoverable dirs :
  forall res budget stem,
    recoverable E w cwd res dirs stem = true ->
    List.length (concat (map (split "_") (dirs ++ [stem]))) <= budget ->
    loop budget res (concat (map (split "_") (dirs ++ [stem])))
    = Ok (committed res dirs ++ stem)%string.
Proof.
  induction dirs as [|d dirs IH]; intros res budget stem Hrec Hlen.
  - cbn [recoverable] in Hrec. simpl in Hlen |- *.
    rewrite app_nil_r in Hlen |- *.
    destruct (underscore_prefixes_tokens stem) as (t & ts & Hs & Hu & Hj).
    rewrite Hu, <- Hj in Hrec. rewrite Hs in Hlen |- *.
    rewrite (loop_stem _ _ _ _ Hrec) by (simpl in Hlen; lia).
    now rewrite Hj.
  - cbn [recoverable] in Hrec.
    apply andb_true_iff in Hrec as [Hrec Hrest].
    apply andb_true_iff in Hrec as [Hnone Hdir].
    change ((d :: dirs) ++ [stem]) with (d :: (dirs ++ [stem])) in Hlen |- *.
    cbn [map concat] in Hlen |- *. rewrite length_app in Hlen.
    destruct (underscore_prefixes_tokens d) as (t & ts & Hs & Hu & Hj).
    rewrite Hu in Hnone. rewrite <- Hj in Hdir. rewrite Hs in Hlen |- *.
    change ((t :: ts) ++ concat (map (split "_") (dirs ++ [stem])))
      with (t :: ts ++ concat (map (split "_") (dirs ++ [stem]))).
    rewrite (loop_directory _ _ _ _ _ Hnone Hdir) by (simpl in Hlen; lia).
    rewrite Hj. cbn [committed fold_left].
    apply IH; [exact Hrest | simpl in Hlen; lia].
Qed.

Lemma recoverDirectories_recoverable dirs stem :
  List.length (split "_" (flattened_path dirs stem)) <= 5 ->
  recoverable E w cwd "./" dirs stem = true ->
  recoverDirectories E w cwd (flattened_path dirs stem)
  = Ok (committed "./" dirs ++ stem)%string.
Proof.
  unfold recoverDirectories, flattened_path. intros Hlen Hrec.
  rewrite split_join in Hlen |- * by (destruct dirs; simpl; discriminate).
  now apply loop_recoverable.
Qed.

End RoundTrip.

(** What the parse reads off an artifact name before it probes. *)
Lemma artifact_name_parts version fragment interfaceName ext :
  includes "_sol_" (fragment ++ "_sol") = false ->
  includes "_sol_" (interfaceName ++ "." ++ ext) = false ->
  includes "." interfaceName = false ->
  includes "." ext = false ->
  split "_sol_"
    (slice (String.length ("contracts_" ++ version ++ "_"))
       ("contracts_" ++ version ++ "_" ++ fragment ++ "_sol_"
          ++ interfaceName ++ "." ++ ext))
  = [fragment; (interfaceName ++ "." ++ ext)%string]
  /\ split "." (interfaceName ++ "." ++ ext) = [interfaceName; ext].
Proof.
  intros Hfrag Hname Hdot_name Hdot_ext. split.
  - replace ("contracts_" ++ version ++ "_" ++ fragment ++ "_sol_"
               ++ interfaceName ++ "." ++ ext)%string
      with (("contracts_" ++ version ++ "_")
              ++ fragment ++ "_sol_" ++ interfaceName ++ "." ++ ext)%string
      by (now rewrite !append_assoc).
    rewrite slice_append, split_first; [| discriminate | exact Hfrag].
    unfold split at 1. now rewrite split_go_none.
  - rewrite split_first;
      [| discriminate | change (but_last ".") with ""; now rewrite append_nil_r].
    unfold split. now rewrite split_go_none.
Qed.

(** C1, as the code has it.  For a source path [dirs]/[stem].sol whose
    flattened form has at most five underscore-delimited tokens, whose every
    prefix directory exists while no underscore prefix of a directory segment
    is an existing directory where it is probed and neither [stem] nor an
    underscore prefix of it is one, and in whose artifact name [_sol_] occurs
    only as the marker and [.] only before the extension, the parse of
    [contracts_<version>_<flattened path>_sol_<InterfaceName>.<ext>] yields
    [./] followed by the path without its [.sol] extension (the directories
    and the file stem), the interface name and the extension. *)
Theorem artifact_name_roundtrip :
  forall (E : NodeEnv) (w : World E) (contractsDir version : string)
         (dirs : list string) (stem interfaceName ext : string),
    List.length (split "_" (flattened_path dirs stem)) <= 5 ->
    recoverable E w (contractsDir ++ "/" ++ version) "./" dirs stem = true ->
    includes "_sol_" (flattened_path dirs stem ++ "_sol") = false ->
    includes "_sol_" (interfaceName ++ "." ++ ext) = false ->
    includes "." interfaceName = false ->
    includes "." ext = false ->
    parseOutputName E w contractsDir version
      (artifact_name version dirs stem interfaceName ext)
    = Ok ((committed "./" dirs ++ stem)%string, Some interfaceName, Some ext).
Proof.
  intros E w contractsDir version dirs stem interfaceName ext
    Hlen Hrec Hfrag Hname Hdot_name Hdot_ext.
  destruct (artifact_name_parts version (flattened_path dirs stem) interfaceName ext
              Hfrag Hname Hdot_name Hdot_ext) as [Hparts Hdots].
  unfold parseOutputName, artifact_name.
  rewrite Hparts. cbn [nth_error]. rewrite Hdots. cbn [nth_error].
  now rewrite recoverDirectories_recoverable.
Qed.

(** The paths the recovery handles have at most four directory segments. *)
Lemma roundtrip_depth (dirs : list string) (stem : string) :
  List.length (split "_" (flattened_path dirs stem)) <= 5 -> List.length dirs <= 4.
Proof.
  intros H. unfold flattened_path in H.
  pose proof (tokens_at_least (dirs ++ [stem])) as Hge.
  rewrite length_app in Hge. simpl in Hge.
  assert (dirs ++ [stem] <> []) by (destruct dirs; simpl; discriminate).
  specialize (Hge ltac:(assumption)). lia.
Qed.

(** ** The recovery on example trees *)

Module RecoveryExamples.

Import Example.

(** [a/b/c/d/e/f/Deep.sol]. *)
Lemma recoverDirectories_depth_six_throws_witness :
  List.length ["a"; "b"; "c"; "d"; "e"; "f"] = 6
  /\ recoverDirectories E0 deep "/repo/contracts/v0.8.9"
       (flattened_path ["a"; "b"; "c"; "d"; "e"; "f"] "Deep")
     = Thrown unexpected_exit.
Proof.
  split; [reflexivity |].
  apply (recoverDirectories_depth_six_throws E0 deep "/repo/contracts/v0.8.9"
           ["a"; "b"; "c"; "d"; "e"; "f"] "Deep");
    vm_compute; reflexivity.
Defined.

(** The fragment [a_b] over the directories [a/b], and the fragment
    [utils_Math] over [utils/Math.sol]. *)
Lemma recoverDirectories_never_directory_only_witness :
  recoverDirectories E0 only_dirs "/repo/contracts/v0.8.9" "a_b"
  = Thrown unexpected_exit
  /\ exists dirs segment,
       "./utils/Math" = (committed "./" dirs ++ segment)%string
       /\ probe E0 nested "/repo/contracts/v0.8.9" (committed "./" dirs) segment = false
       /\ nested_dirs E0 nested "/repo/contracts/v0.8.9" "./" dirs = true
       /\ "utils_Math" = join "_" (dirs ++ [segment]).
Proof.
  split.
  - apply (proj1 (recoverDirectories_never_directory_only
                    E0 only_dirs "/repo/contracts/v0.8.9" "a_b")).
    vm_compute; reflexivity.
  - apply (proj2 (recoverDirectories_never_directory_only
                    E0 nested "/repo/contracts/v0.8.9" "utils_Math")).
    vm_compute; reflexivity.
Defined.

(** [issues/Issue552_Reproduction.sol] declaring [Issue552_Observer]. *)
Lemma artifact_name_roundtrip_witness :
  parseOutputName E0 nested "/repo/contracts" "v0.8.9"
    (artifact_name "v0.8.9" ["issues"] "Issue552_Reproduction" "Issue552_Observer" "abi")
  = Ok ("./issues/Issue552_Reproduction", Some "Issue552_Observer", Some "abi").
Proof.
  apply (artifact_name_roundtrip E0 nested "/repo/contracts" "v0.8.9"
           ["issues"] "Issue552_Reproduction" "Issue552_Observer" "abi");
    vm_compute; try reflexivity; lia.
Defined.

(** C1, as claimed, fails, on paths of depth at most two whose prefix
    directories all exist.  [utils/Math.sol] comes back as [./utils/Math],
    the path with the file stem and not the directory [utils].  With [a]
    next to [a_b], [a_b/Token.sol] comes back as [./a/b_Token].  The
    recovery throws for [lib/sol/Token.sol], whose name is cut at the
    directory [sol]; for [utils/Math.sol] when [utils/Math] is a directory;
    and for [my_long_dir_name/Big_Token.sol], which has six tokens.  The
    interface name [My_sol_Token] comes back as [My], without an extension. *)
Lemma roundtrip_counterexample :
  ~ claimed_roundtrip E0 nested "/repo/contracts" "v0.8.9"
      ["utils"] "Math" "MathLib" "abi"
  /\ ~ claimed_roundtrip E0 ambiguous "/repo/contracts" "v0.8.9"
         ["a_b"] "Token" "Token" "abi"
  /\ ~ claimed_roundtrip E0 marker_in_path "/repo/contracts" "v0.8.9"
         ["lib"; "sol"] "Token" "Token" "abi"
  /\ ~ claimed_roundtrip E0 stem_is_directory "/repo/contracts" "v0.8.9"
         ["utils"] "Math" "MathLib" "abi"
  /\ ~ claimed_roundtrip E0 long_names "/repo/contracts" "v0.8.9"
         ["my_long_dir_name"] "Big_Token" "Big_Token" "abi"
  /\ ~ claimed_roundtrip E0 nested "/repo/contracts" "v0.8.9"
         ["utils"] "Math" "My_sol_Token" "abi".
Proof.
  repeat split; intros H;
    (destruct H as (filePath & Hparse & Hdirs);
     [simpl; lia | vm_compute; reflexivity |]);
    vm_compute in Hparse; try discriminate Hparse;
    injection Hparse as <-; vm_compute in Hdirs; discriminate Hdirs.
Qed.

(** What the parse yields on these names. *)
Example stem_is_returned :
  parseOutputName E0 nested "/repo/contracts" "v0.8.9"
    (artifact_name "v0.8.9" ["utils"] "Math" "MathLib" "abi")
  = Ok ("./utils/Math", Some "MathLib", Some "abi").
Proof. vm_compute; reflexivity. Qed.

Example ambiguous_directories :
  parseOutputName E0 ambiguous "/repo/contracts" "v0.8.9"
    (artifact_name "v0.8.9" ["a_b"] "Token" "Token" "abi")
  = Ok ("./a/b_Token", Some "Token", Some "abi").
Proof. vm_compute; reflexivity. Qed.

Example marker_inside_path :
  parseOutputName E0 marker_in_path "/repo/contracts" "v0.8.9"
    (artifact_name "v0.8.9" ["lib"; "sol"] "Token" "Token" "abi")
  = Thrown unexpected_exit.
Proof. vm_compute; reflexivity. Qed.

Example stem_names_a_directory :
  parseOutputName E0 stem_is_directory "/repo/contracts" "v0.8.9"
    (artifact_name "v0.8.9" ["utils"] "Math" "MathLib" "abi")
  = Thrown unexpected_exit.
Proof. vm_compute; reflexivity. Qed.

Example six_tokens :
  parseOutputName E0 long_names "/repo/contracts" "v0.8.9"
    (artifact_name "v0.8.9" ["my_long_dir_name"] "Big_Token" "Big_Token" "abi")
  = Thrown unexpected_exit.
Proof. vm_compute; reflexivity. Qed.

Example marker_inside_interface_name :
  parseOutputName E0 nested "/repo/contracts" "v0.8.9"
    (artifact_name "v0.8.9" ["utils"] "Math" "My_sol_Token" "abi")
  = Ok ("./utils/Math", Some "My", None).
Proof. vm_compute; reflexivity. Qed.

End RecoveryExamples.

(** ** Running the script *)

Section RunFacts.

Variable E : NodeEnv.

Lemma bind_ok {A B} (m : Script E A) (k : A -> Script E B) s a s' :
  m s = (Ok a, s') -> bind m k s = k a s'.
Proof. intros H; unfold bind; now rewrite H. Qed.

Lemma bind_thrown {A B} (m : Script E A) (k : A -> Script E B) s e s' :
  m s = (Thrown e, s') -> bind m k s = (Thrown e, s').
Proof. intros H; unfold bind; now rewrite H. Qed.

Lemma console_log_run text s :
  console_log E text s = (Ok tt, logged s [(call_console_log text, None)]).
Proof. reflexivity. Qed.

Lemma logged_logged (s : State E) l1 l2 : logged (logged s l1) l2 = logged s (l1 ++ l2).
Proof. unfold logged; simpl. now rewrite <- app_assoc. Qed.

Lemma logged_nil (s : State E) : logged s [] = s.
Proof. destruct s; unfold logged; simpl. now rewrite app_nil_r. Qed.

(** *** findFiles *)

Lemma array_map_sources dirs :
  forall s,
    array_map E
      (fun directory =>
         let version := dirent_name directory in
         let path := resolve E [(contractsDir_of E); version] in
         filePaths <- query (call_globSync "./**/*.sol" path)
                        (fun w => Ok (globSync E "./**/*.sol" path w)) ;;
         ret (version, filePaths))
      dirs s
    = (Ok (map (sources_of E (world s)) dirs), logged s (map (sources_call E) dirs)).
Proof.
  induction dirs as [|d dirs IH]; intros s.
  - simpl. now rewrite logged_nil.
  - cbn [array_map map].
    erewrite bind_ok with (a := sources_of E (world s) d)
                          (s' := logged s [(sources_call E) d]) by reflexivity.
    erewrite bind_ok by apply IH.
    unfold ret. now rewrite logged_logged.
Qed.

(** [findFiles] reads the world and leaves it as it is; it throws only when
    the listing of the contracts root does. *)
Lemma findFiles_run s :
  findFiles E s
  = match readdirSync_withFileTypes E (contractsDir_of E) (world s) with
    | Ok dirents =>
        (Ok (mkFiles (resolve E [__dirname E; ".."]) (contractsDir_of E)
               (resolve E [(contractsDir_of E); "compiled"])
               (new_Map (map (sources_of E (world s)) (filter is_version_dir dirents)))
               (globSync E "**/*.json" (contractsDir_of E) (world s))),
         logged s ((call_readdirSync (contractsDir_of E) true, None)
                     :: map (sources_call E) (filter is_version_dir dirents)
                     ++ [(call_globSync "**/*.json" (contractsDir_of E), None)]))
    | Thrown e =>
        (Thrown e, logged s [(call_readdirSync (contractsDir_of E) true, Some e)])
    end.
Proof.
  unfold findFiles. fold (contractsDir_of E).
  destruct (readdirSync_withFileTypes E (contractsDir_of E) (world s)) as [dirents|e] eqn:Hread.
  - erewrite bind_ok with (a := dirents)
                          (s' := logged s [(call_readdirSync (contractsDir_of E) true, None)])
      by (unfold query; now rewrite Hread).
    erewrite bind_ok by apply array_map_sources.
    rewrite logged_logged.
    erewrite bind_ok by reflexivity.
    unfold ret, logged. cbn [world trace]. now rewrite <- !app_assoc.
  - erewrite bind_thrown; [reflexivity |]. unfold query. now rewrite Hread.
Qed.

Lemma findFiles_ok s files s' :
  findFiles E s = (Ok files, s') ->
  exists dirents,
    readdirSync_withFileTypes E (contractsDir_of E) (world s) = Ok dirents
    /\ world s' = world s
    /\ rootDir files = resolve E [__dirname E; ".."]
    /\ contractsDir files = (contractsDir_of E)
    /\ outDir files = resolve E [(contractsDir_of E); "compiled"]
    /\ contracts files
       = new_Map (map (sources_of E (world s)) (filter is_version_dir dirents))
    /\ prebuiltAbis files = globSync E "**/*.json" (contractsDir_of E) (world s).
Proof.
  rewrite findFiles_run.
  destruct (readdirSync_withFileTypes E (contractsDir_of E) (world s)) as [dirents|e];
    [| discriminate].
  intros H. injection H as <- <-. exists dirents. now repeat split.
Qed.

(** *** main *)

Lemma main_after_findFiles s0 files s :
  findFiles E s0 = (Ok files, s) ->
  main E s0 = bind (removeOutDir E files) (fun _ => after_reset E files) s.
Proof.
  intros H.
  exact (bind_ok (findFiles E)
           (fun files => bind (removeOutDir E files) (fun _ => after_reset E files))
           s0 files s H).
Qed.

End RunFacts.

(** ** Output reset *)

Lemma removeOutDir_run (E : NodeEnv) (files : Files) (s : State E) :
  removeOutDir E files s
  = let '(r, w') := rmdirSync E (outDir files) true (world s) in
    (match r with
     | Ok _ => Ok tt
     | Thrown e => if is_ENOENT e then Ok tt else Thrown e
     end,
     mkState w'
       (trace s ++ [(call_console_log (bold E "Cleaning up contracts/abis"), None);
                    (call_rmdirSync (outDir files) true, thrown_by r)])).
Proof.
  unfold removeOutDir.
  erewrite bind_ok by apply console_log_run.
  unfold try_catch, effect, logged. cbn [world trace].
  destruct (rmdirSync E (outDir files) true (world s)) as [[[]|e] w'];
    rewrite <- app_assoc; cbn [app thrown_by]; [reflexivity |].
  unfold is_ENOENT. destruct (code e) as [c|]; [|reflexivity].
  destruct (String.eqb c "ENOENT"); reflexivity.
Qed.

(** C4. [removeOutDir] asks for the recursive removal of the output
    directory.  When the removal succeeds, or throws with code [ENOENT]
    because the directory does not exist, [removeOutDir] returns and the run
    goes on with the compilation; any other error is thrown again and is the
    outcome of the run, with nothing called after the failed removal. *)
Theorem removeOutDir_outcomes :
  forall (E : NodeEnv) (s0 s : State E) (files : Files) (r : Result unit) (w' : World E),
    findFiles E s0 = (Ok files, s) ->
    rmdirSync E (outDir files) true (world s) = (r, w') ->
    let s' :=
      mkState w'
        (trace s ++ [(call_console_log (bold E "Cleaning up contracts/abis"), None);
                     (call_rmdirSync (outDir files) true, thrown_by r)]) in
    outDir files = resolve E [contractsDir files; "compiled"]
    /\ match r with
       | Ok _ =>
           removeOutDir E files s = (Ok tt, s')
           /\ main E s0 = after_reset E files s'
       | Thrown e =>
           if is_ENOENT e
           then removeOutDir E files s = (Ok tt, s')
                /\ main E s0 = after_reset E files s'
           else removeOutDir E files s = (Thrown e, s')
                /\ main E s0 = (Thrown e, s')
       end.
Proof.
  intros E s0 s files r w' Hfind Hrm s'.
  pose proof (removeOutDir_run E files s) as Hrun. rewrite Hrm in Hrun.
  fold s' in Hrun.
  rewrite (main_after_findFiles E s0 files s Hfind).
  destruct (findFiles_ok E s0 files s Hfind) as (_ & _ & _ & _ & Hc & Ho & _).
  split; [now rewrite Ho, Hc |].
  destruct r as [[]|e]; [| destruct (is_ENOENT e)].
  - split; [exact Hrun | now rewrite (bind_ok E _ _ _ _ _ Hrun)].
  - split; [exact Hrun | now rewrite (bind_ok E _ _ _ _ _ Hrun)].
  - split; [exact Hrun | now rewrite (bind_thrown E _ _ _ _ _ Hrun)].
Qed.

(** ** Compilation dispatch *)

Section Dispatch.

Variable E : NodeEnv.
Variable files : Files.

Lemma compile_group_run group s :
  compile_group E files group s
  = (fst (execSync E (solc_command E (fst group) (snd group)) (rootDir files) (world s)),
     mkState (compiled E files (world s) group)
       (trace s ++ [compile_log E group;
                    (invocation E files group,
                     thrown_by (fst (execSync E (solc_command E (fst group) (snd group))
                                       (rootDir files) (world s))))])).
Proof.
  destruct group as [dirName filePaths]. unfold compile_group, compile_log, compiled, invocation.
  erewrite bind_ok by apply console_log_run.
  unfold effect, logged. cbn [world trace fst snd].
  destruct (execSync E (solc_command E dirName filePaths) (rootDir files) (world s))
    as [r w'].
  cbn [fst snd]. now rewrite <- app_assoc.
Qed.

Lemma invocations_app tr1 tr2 : invocations (tr1 ++ tr2) = invocations tr1 ++ invocations tr2.
Proof. unfold invocations. now rewrite map_app, filter_app. Qed.

Lemma failures_app tr1 tr2 : failures (tr1 ++ tr2) = failures tr1 ++ failures tr2.
Proof. unfold failures. now rewrite flat_map_app. Qed.

(** The invocations made by the loop over the groups [l]: those of the
    first [n] groups, each from the world its predecessor left; all of them
    when the loop returns, and the failed one last when it throws. *)
Lemma dispatch_run l :
  forall s r s',
    for_of E l (compile_group E files) s = (r, s') ->
    exists n added,
      n <= List.length l
      /\ trace s' = trace s ++ added
      /\ invocations added = map (invocation E files) (firstn n l)
      /\ world s' = fold_left (compiled E files) (firstn n l) (world s)
      /\ match r with
         | Ok _ => n = List.length l /\ failures added = []
         | Thrown e =>
             exists before group,
               added = before ++ [(invocation E files group, Some e)]
               /\ nth_error l (n - 1) = Some group
               /\ 0 < n
               /\ failures before = []
         end.
Proof.
  induction l as [|g l IH]; intros s r s' H.
  - injection H as <- <-. exists 0, []. rewrite app_nil_r. now repeat split.
  - cbn [for_of] in H. unfold bind in H. rewrite compile_group_run in H.
    destruct (execSync E (solc_command E (fst g) (snd g)) (rootDir files) (world s))
      as [[[]|e] w'] eqn:Hexec; cbn [fst thrown_by] in H.
    + apply IH in H as (n & added & Hn & Htrace & Hinv & Hworld & Hr).
      cbn [world trace] in Htrace, Hworld.
      exists (S n), ([compile_log E g; (invocation E files g, None)] ++ added).
      split; [simpl; lia |].
      split; [rewrite Htrace, <- app_assoc; reflexivity |].
      split; [rewrite invocations_app, Hinv; reflexivity |].
      split; [exact Hworld |].
      destruct r as [[]|e].
      * destruct Hr as [-> Hfail]. split; [reflexivity |].
        now rewrite failures_app, Hfail.
      * destruct Hr as (before & group & -> & Hnth & Hpos & Hfail).
        exists ([compile_log E g; (invocation E files g, None)] ++ before), group.
        split; [now rewrite <- app_assoc |].
        split; [| split; [lia | now rewrite failures_app, Hfail]].
        destruct n as [|n]; [lia |].
        simpl in Hnth |- *. now rewrite Nat.sub_0_r in Hnth.
    + injection H as <- <-. cbn [world trace].
      exists 1, [compile_log E g; (invocation E files g, Some e)].
      split; [simpl; lia |]. split; [reflexivity |].
      split; [reflexivity |].
      split; [unfold compiled; simpl; now rewrite Hexec |].
      exists [compile_log E g], g. repeat split; simpl; auto.
Qed.

Lemma generateABIs_unfold s :
  generateABIs E files s
  = for_of E (contracts files) (compile_group E files)
      (logged s [(call_console_log (bold E "Generating ABIs"), None)]).
Proof.
  unfold generateABIs. erewrite bind_ok by apply console_log_run.
  unfold entries. f_equal.
Qed.

End Dispatch.

(** C5. [generateABIs] makes one compiler invocation per version group, in
    the order of the version mapping, each from the world the one before it
    left.  When all succeed there is exactly one per group.  When one throws
    (a non-zero exit status), it is the last call made: the groups after it
    are not compiled, and the error is the outcome of the whole run. *)
Theorem generateABIs_dispatch :
  forall (E : NodeEnv) (files : Files) (s : State E) (r : Result unit) (s' : State E),
    generateABIs E files s = (r, s') ->
    (exists n added,
        n <= List.length (contracts files)
        /\ trace s' = trace s ++ added
        /\ invocations added = map (invocation E files) (firstn n (contracts files))
        /\ world s' = fold_left (compiled E files) (firstn n (contracts files)) (world s)
        /\ match r with
           | Ok _ => n = List.length (contracts files) /\ failures added = []
           | Thrown e =>
               exists before group,
                 added = before ++ [(invocation E files group, Some e)]
                 /\ nth_error (contracts files) (n - 1) = Some group
                 /\ 0 < n
                 /\ failures before = []
           end)
    /\ (forall (s0 s1 : State E) (e : Error),
          findFiles E s0 = (Ok files, s1) ->
          removeOutDir E files s1 = (Ok tt, s) ->
          r = Thrown e ->
          main E s0 = (Thrown e, s')).
Proof.
  intros E files s r s' H. split.
  - rewrite generateABIs_unfold in H.
    apply dispatch_run in H as (n & added & Hn & Htrace & Hinv & Hworld & Hr).
    cbn [logged world trace] in Htrace, Hworld.
    exists n, ((call_console_log (bold E "Generating ABIs"), None) :: added).
    split; [exact Hn |].
    split; [now rewrite Htrace, <- app_assoc |].
    split; [exact Hinv |]. split; [exact Hworld |].
    destruct r as [[]|e]; [exact Hr |].
    destruct Hr as (before & group & -> & Hnth & Hpos & Hfail).
    exists ((call_console_log (bold E "Generating ABIs"), None) :: before), group.
    now repeat split.
  - intros s0 s1 e Hfind Hreset ->.
    rewrite (main_after_findFiles E s0 files s1 Hfind).
    rewrite (bind_ok E _ _ _ _ _ Hreset). unfold after_reset.
    now rewrite (bind_thrown E _ _ _ _ _ H).
Qed.

(** ** Discovery *)

Lemma keys_Map_set {V} (k : string) (v : V) m x :
  In x (keys (Map_set k v m)) <-> x = k \/ In x (keys m).
Proof.
  induction m as [|[k' v'] m IH]; simpl.
  - intuition congruence.
  - destruct (String.eqb k' k) eqn:Hk; simpl.
    + apply String.eqb_eq in Hk as ->. intuition congruence.
    + rewrite IH. intuition congruence.
Qed.

Lemma In_Map_set {V} (k : string) (v : V) m x y :
  In (x, y) (Map_set k v m) -> (x, y) = (k, v) \/ In (x, y) m.
Proof.
  induction m as [|[k' v'] m IH]; simpl.
  - intuition congruence.
  - destruct (String.eqb k' k) eqn:Hk; simpl.
    + apply String.eqb_eq in Hk as ->. intuition congruence.
    + intuition congruence.
Qed.

Lemma Map_set_fresh {V} (k : string) (v : V) m :
  ~ In k (keys m) -> Map_set k v m = m ++ [(k, v)].
Proof.
  induction m as [|[k' v'] m IH]; simpl; intros Hk; [reflexivity |].
  destruct (String.eqb k' k) eqn:Heq.
  - apply String.eqb_eq in Heq. intuition congruence.
  - rewrite IH by intuition. reflexivity.
Qed.

Lemma keys_fold_Map_set {V} (pairs : list (string * V)) :
  forall acc x,
    In x (keys (fold_left (fun m kv => Map_set (fst kv) (snd kv) m) pairs acc))
    <-> In x (keys acc) \/ In x (map fst pairs).
Proof.
  induction pairs as [|[k v] pairs IH]; intros acc x; simpl.
  - intuition.
  - rewrite IH, keys_Map_set. intuition congruence.
Qed.

Lemma In_fold_Map_set {V} (pairs : list (string * V)) :
  forall acc x y,
    In (x, y) (fold_left (fun m kv => Map_set (fst kv) (snd kv) m) pairs acc) ->
    In (x, y) acc \/ In (x, y) pairs.
Proof.
  induction pairs as [|[k v] pairs IH]; intros acc x y; simpl.
  - intuition.
  - intros H. apply IH in H as [H | H]; [| now right; right].
    apply In_Map_set in H as [H | H]; [right; left; congruence | now left].
Qed.

Lemma fold_Map_set_fresh {V} (pairs : list (string * V)) :
  forall acc,
    NoDup (keys acc ++ map fst pairs) ->
    fold_left (fun m kv => Map_set (fst kv) (snd kv) m) pairs acc = acc ++ pairs.
Proof.
  induction pairs as [|[k v] pairs IH]; intros acc Hnd; simpl.
  - now rewrite app_nil_r.
  - simpl in Hnd. pose proof (NoDup_remove_2 _ _ _ Hnd) as Hk.
    rewrite Map_set_fresh by (intros Hin; apply Hk, in_or_app; now left).
    rewrite IH, <- app_assoc; [reflexivity |].
    unfold keys. rewrite map_app. simpl. rewrite <- app_assoc. exact Hnd.
Qed.

(** With distinct keys the map lists the pairs as given. *)
Lemma new_Map_distinct {V} (pairs : list (string * V)) :
  NoDup (map fst pairs) -> new_Map pairs = pairs.
Proof. intros H. unfold new_Map. now rewrite fold_Map_set_fresh. Qed.

(** Distinct names stay distinct among the version directories. *)
Lemma version_dirs_distinct (dirents : list Dirent) :
  NoDup (map dirent_name dirents) ->
  NoDup (map dirent_name (filter is_version_dir dirents)).
Proof.
  induction dirents as [|d dirents IH]; simpl; intros Hnd; [constructor |].
  inversion Hnd as [|? ? Hfresh Hrest]; subst.
  destruct (is_version_dir d); simpl; [constructor |]; auto.
  intros Hin. apply Hfresh. apply in_map_iff in Hin as (d' & <- & Hd').
  apply in_map. now apply filter_In in Hd' as [Hd' _].
Qed.

(** When the contracts root can be listed, [findFiles] returns without an
    error and leaves the world as it is.  The version groups are exactly the
    listed entries that are directories and whose name starts with [v], in
    the order of the listing; without such an entry the mapping is empty.
    The source files of a group are the result of the search [./**/*.sol]
    below the group's directory. *)
Lemma findFiles_version_groups :
  forall (E : NodeEnv) (s : State E) (dirents : list Dirent),
    readdirSync_withFileTypes E (contractsDir_of E) (world s) = Ok dirents ->
    exists files s',
      findFiles E s = (Ok files, s')
      /\ world s' = world s
      /\ (forall version,
            In version (keys (contracts files))
            <-> exists d, In d dirents
                          /\ dirent_isDirectory d = true
                          /\ startsWith (dirent_name d) "v" = true
                          /\ dirent_name d = version)
      /\ (forall version filePaths,
            In (version, filePaths) (contracts files) ->
            filePaths
            = globSync E "./**/*.sol" (resolve E [contractsDir files; version]) (world s))
      /\ (NoDup (map dirent_name dirents) ->
          contracts files = map (sources_of E (world s)) (filter is_version_dir dirents))
      /\ (filter is_version_dir dirents = [] -> contracts files = []).
Proof.
  intros E s dirents Hread.
  pose proof (findFiles_run E s) as Hrun. rewrite Hread in Hrun.
  eexists _, _. split; [exact Hrun |]. cbn [contracts contractsDir world logged].
  split; [reflexivity |]. split; [| split; [| split]].
  - intros version. unfold new_Map. rewrite keys_fold_Map_set.
    rewrite map_map. cbn [sources_of fst]. split.
    + intros [[] | Hin]. apply in_map_iff in Hin as (d & Hname & Hd).
      apply filter_In in Hd as [Hd Hv]. unfold is_version_dir in Hv.
      apply andb_true_iff in Hv as [Hdir Hv]. now exists d.
    + intros (d & Hd & Hdir & Hv & Hname). right.
      apply in_map_iff. exists d. split; [exact Hname |].
      apply filter_In. split; [exact Hd |].
      unfold is_version_dir. now rewrite Hdir, Hv.
  - intros version filePaths Hin. unfold new_Map in Hin.
    apply In_fold_Map_set in Hin as [[] | Hin].
    apply in_map_iff in Hin as (d & Heq & _).
    unfold sources_of in Heq. now injection Heq as <- <-.
  - intros Hnd. apply new_Map_distinct. rewrite map_map. cbn [sources_of fst].
    now apply version_dirs_distinct.
  - intros ->. reflexivity.
Qed.

(** The sort of [glob]. *)
Section Sorted.

Variable compare : string -> string -> comparison.
Hypothesis compare_total : forall a b, compare a b = Gt -> compare b a <> Gt.

Lemma ordered_cons a b l :
  compare a b <> Gt -> ordered compare (b :: l) = true ->
  ordered compare (a :: b :: l) = true.
Proof.
  intros Hab Hl. cbn [ordered]. fold (ordered compare (b :: l)).
  destruct (compare a b); [exact Hl | exact Hl | now elim Hab].
Qed.

Lemma ordered_tail a l : ordered compare (a :: l) = true -> ordered compare l = true.
Proof.
  destruct l as [|b l]; [reflexivity |]. cbn [ordered]. fold (ordered compare (b :: l)).
  destruct (compare a b); [trivial | trivial | discriminate].
Qed.

Lemma ordered_head a b l : ordered compare (a :: b :: l) = true -> compare a b <> Gt.
Proof.
  cbn [ordered]. intros H Hgt. rewrite Hgt in H. discriminate H.
Qed.

Lemma sort_insert_ordered x l :
  ordered compare l = true -> ordered compare (sort_insert compare x l) = true.
Proof.
  induction l as [|y l IH]; intros Hl; [reflexivity |].
  cbn [sort_insert]. destruct (compare x y) eqn:Hxy.
  - apply ordered_cons; [congruence | exact Hl].
  - apply ordered_cons; [congruence | exact Hl].
  - specialize (IH (ordered_tail _ _ Hl)).
    destruct l as [|z l]; cbn [sort_insert] in IH |- *.
    + apply ordered_cons; [now apply compare_total | reflexivity].
    + destruct (compare x z) eqn:Hxz.
      * apply ordered_cons; [now apply compare_total | exact IH].
      * apply ordered_cons; [now apply compare_total | exact IH].
      * apply ordered_cons; [exact (ordered_head _ _ _ Hl) | exact IH].
Qed.

(** The sort keeps the elements. *)
Lemma sort_insert_keeps x l : Permutation (sort_insert compare x l) (x :: l).
Proof.
  induction l as [|y l IH]; [reflexivity |].
  cbn [sort_insert]. destruct (compare x y); [reflexivity | reflexivity |].
  rewrite IH. apply perm_swap.
Qed.

Lemma sort_keeps l : Permutation (sort compare l) l.
Proof.
  induction l as [|x l IH]; [reflexivity |].
  cbn [sort fold_right]. rewrite sort_insert_keeps. now constructor.
Qed.

(** A consistent comparator leaves the sorted list in its order. *)
Lemma sort_ordered l : ordered compare (sort compare l) = true.
Proof.
  induction l as [|x l IH]; [reflexivity |].
  cbn [sort fold_right]. now apply sort_insert_ordered.
Qed.

End Sorted.

(** C7. When the contracts root can be listed, [findFiles] returns without
    an error.  The version groups are exactly the listed entries that are
    directories and whose name starts with [v]; every other entry is left
    out, and without a version directory the mapping is empty.  The source
    files of a group are what the search [./**/*.sol] of [glob] returns below
    the group's directory in the world of the run: exactly the matches of
    the search, in lexicographic order, the order of the collation [glob]
    sorts by, whatever order the search met them in. *)
Theorem findFiles_discovery :
  forall (E : NodeEnv) (s : State E) (dirents : list Dirent),
    (forall a b, localeCompare E a b = Gt -> localeCompare E b a <> Gt) ->
    readdirSync_withFileTypes E (contractsDir_of E) (world s) = Ok dirents ->
    exists files s',
      findFiles E s = (Ok files, s')
      /\ world s' = world s
      /\ (forall version,
            In version (keys (contracts files))
            <-> exists d, In d dirents
                          /\ dirent_isDirectory d = true
                          /\ startsWith (dirent_name d) "v" = true
                          /\ dirent_name d = version)
      /\ (forall version filePaths,
            In (version, filePaths) (contracts files) ->
            filePaths
            = globSync E "./**/*.sol" (resolve E [contractsDir files; version]) (world s)
            /\ Permutation filePaths
                 (glob_matches E "./**/*.sol" (resolve E [contractsDir files; version])
                    (world s))
            /\ ordered (localeCompare E) filePaths = true)
      /\ (NoDup (map dirent_name dirents) ->
          contracts files = map (sources_of E (world s)) (filter is_version_dir dirents))
      /\ (filter is_version_dir dirents = [] -> contracts files = []).
Proof.
  intros E s dirents Htotal Hread.
  destruct (findFiles_version_groups E s dirents Hread)
    as (files & s' & Hrun & Hworld & Hkeys & Hfiles & Hlist & Hnone).
  exists files, s'. split; [exact Hrun |]. split; [exact Hworld |].
  split; [exact Hkeys |]. split; [| now split].
  intros version filePaths Hin. rewrite (Hfiles _ _ Hin).
  split; [reflexivity |]. unfold globSync, alphasort.
  split; [apply sort_keeps | now apply sort_ordered].
Qed.

(** ** Prebuilt ABIs *)

Section Prebuilt.

Variable E : NodeEnv.
Variable files : Files.

(** The copies made by the loop over the prebuilt paths [l]: one per path,
    in order, until one throws. *)
Lemma copy_prebuilt_run l :
  forall s r s',
    for_of E l (copy_prebuilt E files) s = (r, s') ->
    match r with
    | Ok _ => trace s' = trace s ++ map (copied_ok E files) l
    | Thrown e =>
        exists n filepath,
          nth_error l n = Some filepath
          /\ trace s' = trace s ++ map (copied_ok E files) (firstn n l)
                          ++ [(copy_request E files filepath, Some e)]
    end.
Proof.
  induction l as [|p l IH]; intros s r s' H.
  - injection H as <- <-. simpl. now rewrite app_nil_r.
  - cbn [for_of] in H. unfold bind, copy_prebuilt at 1, effect in H.
    destruct (copySync E (resolve E [contractsDir files; p])
                (prebuilt_dest E files p) true (world s)) as [[[]|e] w'];
      cbn [thrown_by] in H.
    + apply IH in H. cbn [trace] in H. destruct r as [[]|e].
      * rewrite H, <- app_assoc. reflexivity.
      * destruct H as (n & filepath & Hnth & ->).
        exists (S n), filepath. split; [exact Hnth |].
        rewrite <- app_assoc. reflexivity.
    + injection H as <- <-. exists 0, p. now split.
Qed.

End Prebuilt.

(** The prebuilt set is the result of the search [**/*.json] below the
    contracts root in the world [main] starts from: [findFiles] changes
    nothing and the output directory is removed only afterwards.  For every
    path of that set, in its order and until a copy throws,
    [copyPrebuiltABIs] asks for a copy. *)
Lemma prebuilt_set_precedes_reset :
  forall (E : NodeEnv) (s0 s1 : State E) (files : Files),
    findFiles E s0 = (Ok files, s1) ->
    world s1 = world s0
    /\ prebuiltAbis files = globSync E "**/*.json" (contractsDir files) (world s0)
    /\ outDir files = resolve E [contractsDir files; "compiled"]
    /\ main E s0 = bind (removeOutDir E files) (fun _ => after_reset E files) s1
    /\ (forall (s : State E) (r : Result unit) (s' : State E),
          copyPrebuiltABIs E files s = (r, s') ->
          match r with
          | Ok _ =>
              trace s' = trace s ++ map (copied_ok E files) (prebuiltAbis files)
          | Thrown e =>
              exists n filepath,
                nth_error (prebuiltAbis files) n = Some filepath
                /\ trace s' = trace s
                                ++ map (copied_ok E files) (firstn n (prebuiltAbis files))
                                ++ [(copy_request E files filepath, Some e)]
          end).
Proof.
  intros E s0 s1 files Hfind.
  destruct (findFiles_ok E s0 files s1 Hfind) as (_ & _ & Hw & _ & Hc & Ho & _ & Hp).
  split; [exact Hw |]. split; [now rewrite Hp, Hc |].
  split; [now rewrite Ho, Hc |].
  split; [now apply main_after_findFiles |].
  intros s r s' H. now apply (copy_prebuilt_run E files) in H.
Qed.


(** ** The script on example trees *)

Module RunExamples.

Import Example.

(** The first run on a tree without an output directory. *)
Lemma removeOutDir_outcomes_witness :
  let s0 := start E1 one_version in
  let s1 := snd (findFiles E1 s0) in
  let s1' :=
    mkState (world s1)
      (trace s1 ++ [(call_console_log "Cleaning up contracts/abis", None);
                    (call_rmdirSync "/repo/contracts/compiled" true,
                     Some no_output_directory)]) in
  removeOutDir E1 files_one_version s1 = (Ok tt, s1')
  /\ main E1 s0 = after_reset E1 files_one_version s1'.
Proof.
  intros s0 s1 s1'.
  assert (H1 : findFiles E1 s0 = (Ok files_one_version, s1))
    by (vm_compute; reflexivity).
  assert (H2 : rmdirSync E1 (outDir files_one_version) true (world s1)
               = (Thrown no_output_directory, world s1))
    by (vm_compute; reflexivity).
  exact (proj2 (removeOutDir_outcomes E1 s0 s1 files_one_version _ _ H1 H2)).
Defined.

(** A removal that fails for another reason ends the run: here the output
    directory is a file, and nothing is called after [rmdirSync]. *)
Example reset_failure_aborts :
  let run := Ref.run scripts solc_v064 (main E1) compiled_is_file in
  fst run = Thrown (Ref.system_error "ENOTDIR" "rmdir" "/repo/contracts/compiled")
  /\ invocations (trace (snd run)) = []
  /\ copies (trace (snd run)) = [].
Proof. vm_compute. repeat split. Qed.

(** The run on two version groups of which the first fails to compile. *)
Lemma generateABIs_dispatch_witness :
  let s0 := start E2 two_versions in
  let s1 := snd (findFiles E2 s0) in
  let s := snd (removeOutDir E2 files_two_versions s1) in
  let s' := snd (generateABIs E2 files_two_versions s) in
  let e := Ref.command_failed (solc_command E2 "v0.6.4" ["./A.sol"]) in
  (exists n added,
      n <= List.length (contracts files_two_versions)
      /\ trace s' = trace s ++ added
      /\ invocations added
         = map (invocation E2 files_two_versions) (firstn n (contracts files_two_versions))
      /\ world s'
         = fold_left (compiled E2 files_two_versions)
             (firstn n (contracts files_two_versions)) (world s)
      /\ exists before group,
           added = before ++ [(invocation E2 files_two_versions group, Some e)]
           /\ nth_error (contracts files_two_versions) (n - 1) = Some group
           /\ 0 < n
           /\ failures before = [])
  /\ main E2 s0 = (Thrown e, s').
Proof.
  intros s0 s1 s s' e.
  assert (H : generateABIs E2 files_two_versions s = (Thrown e, s'))
    by (vm_compute; reflexivity).
  destruct (generateABIs_dispatch E2 files_two_versions s (Thrown e) s' H) as [Hd Hm].
  split; [exact Hd |].
  apply (Hm s0 s1 e); vm_compute; reflexivity.
Defined.

(** The compiler of the first of two groups fails: the second group is
    not compiled and the run ends with the compiler's error. *)
Example first_compiler_fails :
  let run := Ref.run scripts solc_fails_first (main E2) two_versions in
  fst run
  = Thrown (Ref.command_failed (solc_command E2 "v0.6.4" ["./A.sol"]))
  /\ invocations (trace (snd run))
     = [call_execSync (solc_command E2 "v0.6.4" ["./A.sol"]) "/repo"]
  /\ copies (trace (snd run)) = [].
Proof. vm_compute. repeat split. Qed.

(** The collation of the reference environment orders consistently. *)
Lemma localeCompare_total (a b : string) :
  Ref.localeCompare a b = Gt -> Ref.localeCompare b a <> Gt.
Proof.
  unfold Ref.localeCompare.
  pose proof (String.compare_antisym (Ref.lower a) (Ref.lower b)) as Hlower.
  pose proof (String.compare_antisym a b) as Hcode.
  destruct (String.compare (Ref.lower a) (Ref.lower b));
    destruct (String.compare (Ref.lower b) (Ref.lower a));
    destruct (String.compare a b); destruct (String.compare b a);
    cbn [CompOpp] in Hlower, Hcode; congruence.
Qed.

(** A contracts root with a version directory, another directory and a
    file whose name starts with [v]; and a version directory in which
    [b.sol] was created before [a.sol]. *)
Lemma findFiles_discovery_witness :
  (exists files s',
      findFiles E1 (start E1 mixed_entries) = (Ok files, s')
      /\ contracts files = [("v0.6.4", ["./A.sol"])])
  /\ (exists files s',
         findFiles E1 (start E1 unsorted) = (Ok files, s')
         /\ contracts files = [("v0.8.9", ["./a.sol"; "./b.sol"])]
         /\ ordered (localeCompare E1) ["./a.sol"; "./b.sol"] = true).
Proof.
  split.
  - destruct (findFiles_discovery E1 (start E1 mixed_entries)
                [mkDirent "v0.6.4" true; mkDirent "legacy" true; mkDirent "v-notes.txt" false]
                localeCompare_total)
      as (files & s' & Hrun & _ & _ & _ & Hgroups & _); [vm_compute; reflexivity |].
    exists files, s'. split; [exact Hrun |].
    rewrite Hgroups; [vm_compute; reflexivity |].
    repeat constructor; simpl; intuition discriminate.
  - destruct (findFiles_discovery E1 (start E1 unsorted) [mkDirent "v0.8.9" true]
                localeCompare_total)
      as (files & s' & Hrun & _ & _ & Hfiles & Hgroups & _); [vm_compute; reflexivity |].
    assert (Hcontracts : contracts files = [("v0.8.9", ["./a.sol"; "./b.sol"])]).
    { rewrite Hgroups; [vm_compute; reflexivity |]. repeat constructor. intros []. }
    exists files, s'. split; [exact Hrun |]. split; [exact Hcontracts |].
    apply (Hfiles "v0.8.9"). rewrite Hcontracts. now left.
Defined.

(** The order is that of the collation, not of the code units: [a.sol]
    comes before [B.sol]. *)
Example mixed_case_order :
  exists files s',
    findFiles E1 (start E1 mixed_case) = (Ok files, s')
    /\ contracts files = [("v0.8.9", ["./a.sol"; "./B.sol"])]
    /\ ordered (localeCompare E1) ["./a.sol"; "./B.sol"] = true
    /\ lexicographic ["./a.sol"; "./B.sol"] = false.
Proof.
  eexists _, _. split; [vm_compute; reflexivity |]. repeat split.
Qed.

(** C10 on a tree with [compiled/stale.json] left in the output
    directory.  The file is in the prebuilt set, but when [copyPrebuiltABIs]
    asks for its copy the reset has removed it: [copySync] throws, the run
    ends with that error, and the output tree holds neither a copy of the
    file nor the prebuilt [legacy/Old.abi] that was next in the set. *)
Theorem stale_json_not_copied_back :
  let run := Ref.run scripts solc_v064 (main E1) stale_output in
  (exists files s',
      findFiles E1 (start E1 stale_output) = (Ok files, s')
      /\ prebuiltAbis files = ["compiled/stale.json"; "legacy/Old.json"])
  /\ fst run
     = Thrown (Ref.system_error "ENOENT" "stat" "/repo/contracts/compiled/stale.json")
  /\ copies (trace (snd run))
     = [call_copySync "/repo/contracts/v0.6.4"
          "/repo/packages/target-truffle-v5-test/contracts/v0.6.4" false;
        call_copySync "/repo/contracts/compiled/stale.json"
          "/repo/contracts/compiled/compiled/stale.abi" true]
  /\ ~ copied_back stale_output (world (snd run)) "compiled/stale.json"
  /\ Ref.lookup "/repo/contracts/compiled/stale.abi" (world (snd run)) = None
  /\ Ref.lookup "/repo/contracts/compiled/compiled/stale.abi" (world (snd run)) = None
  /\ Ref.lookup "/repo/contracts/compiled/legacy/Old.abi" (world (snd run)) = None.
Proof.
  intros run.
  split; [eexists _, _; split; [vm_compute; reflexivity | reflexivity] |].
  split; [vm_compute; reflexivity |]. split; [vm_compute; reflexivity |].
  split; [| vm_compute; repeat split].
  intros (content & _ & Hafter). vm_compute in Hafter. discriminate Hafter.
Qed.

(** C6 at a path that contains [.json] before its extension.  The copy
    asked for [abis.jsons/Old.json] goes to [abis.abis/Old.json]: the first
    [.json] is replaced, not the extension.  After a run the output tree has
    that file and no [abis.jsons/Old.abi]. *)
Theorem copyPrebuiltABIs_replaces_first_occurrence :
  (forall (E : NodeEnv) (files : Files),
      copy_request E files "abis.jsons/Old.json"
      = call_copySync (resolve E [contractsDir files; "abis.jsons/Old.json"])
          (resolve E [outDir files; "abis.abis/Old.json"]) true)
  /\ (let run := Ref.run scripts solc_v064 (main E1) json_in_directory_name in
      fst run = Ok tt
      /\ Ref.lookup "/repo/contracts/compiled/abis.abis/Old.json" (world (snd run))
         = Some (Ref.File "[]")
      /\ Ref.lookup "/repo/contracts/compiled/abis.jsons/Old.abi" (world (snd run)) = None).
Proof.
  split; [reflexivity |]. vm_compute. repeat split.
Qed.

(** The prebuilt [legacy/Old.json] of the scenario is copied to
    [legacy/Old.abi] with the same content. *)
Example legacy_copied :
  let run := Ref.run scripts solc_v064 (main E1) mixed_entries in
  fst run = Ok tt
  /\ Ref.lookup "/repo/contracts/legacy/Old.json" mixed_entries = Some (Ref.File "[]")
  /\ Ref.lookup "/repo/contracts/compiled/legacy/Old.abi" (world (snd run))
     = Some (Ref.File "[]").
Proof. vm_compute. repeat split. Qed.

(** C8 on a tree with the prebuilt [abis.jsons/Old.json].  Two runs in a
    row both succeed and leave the sources as they were, but the second run
    finds the [compiled/abis.abis/Old.json] the first one wrote, takes it for
    a prebuilt ABI and adds [compiled/compiled/abis.abis/Old.abi]: the output
    trees of the two runs differ. *)
Theorem main_twice_differs :
  let first := tree_after solc_v064 json_in_directory_name in
  let second := tree_after solc_v064 first in
  fst (Ref.run scripts solc_v064 (main E1) json_in_directory_name) = Ok tt
  /\ fst (Ref.run scripts solc_v064 (main E1) first) = Ok tt
  /\ source_tree first = source_tree json_in_directory_name
  /\ source_tree second = source_tree json_in_directory_name
  /\ Ref.lookup "/repo/contracts/compiled/compiled/abis.abis/Old.abi" first = None
  /\ Ref.lookup "/repo/contracts/compiled/compiled/abis.abis/Old.abi" second
     = Some (Ref.File "[]")
  /\ output_tree first <> output_tree second.
Proof.
  vm_compute. repeat split. discriminate.
Qed.

End RunExamples.

(** * Further properties *)

(** ** More on [recoverDirectories] *)

Section RecoveryBounds.

Variable E : NodeEnv.
Variable w : World E.
Variable cwd : string.

Local Abbreviation loop := (recoverDirectories_loop E w cwd).
Local Abbreviation probes := (probe E w cwd).

(** The committed directories followed by the last segment are the
    segments joined by slashes. *)
Lemma committed_join dirs :
  forall res segment,
    (committed res dirs ++ segment)%string
    = (res ++ join "/" (dirs ++ [segment]))%string.
Proof.
  induction dirs as [|d dirs IH]; intros res segment; [reflexivity |].
  cbn [committed fold_left]. fold (committed (res ++ d ++ "/") dirs).
  rewrite IH.
  change ((d :: dirs) ++ [segment]) with (d :: (dirs ++ [segment])).
  rewrite join_cons by (destruct dirs; simpl; discriminate).
  now rewrite !append_assoc.
Qed.

(** A return needs one probe more than the directories it committed. *)
Lemma loop_returns_within budget :
  forall res segments r,
    loop budget res segments = Ok r ->
    exists dirs segment,
      List.length dirs < budget
      /\ r = (committed res dirs ++ segment)%string
      /\ join "_" segments = join "_" (dirs ++ [segment]).
Proof.
  induction budget as [|budget IH]; intros res segments r H.
  - now rewrite loop_zero in H.
  - destruct segments as [|segment rest]; [now rewrite loop_nil in H |].
    destruct (probes res segment) eqn:Hp.
    + rewrite loop_commit in H by exact Hp.
      destruct rest as [|next rest]; [now rewrite loop_nil in H |].
      destruct (IH _ _ _ H) as (dirs & last & Hlen & Hr & Hjoin).
      exists (segment :: dirs), last. split; [simpl; lia |]. split; [exact Hr |].
      rewrite join_cons by discriminate.
      change ((segment :: dirs) ++ [last]) with (segment :: (dirs ++ [last])).
      rewrite (join_cons "_" segment (dirs ++ [last]))
        by (destruct dirs; simpl; discriminate).
      now rewrite Hjoin.
    + destruct rest as [|next rest].
      * rewrite loop_return in H by exact Hp. injection H as <-.
        exists [], segment. split; [simpl; lia |]. now split.
      * rewrite loop_rejoin in H by exact Hp.
        destruct (IH _ _ _ H) as (dirs & last & Hlen & Hr & Hjoin).
        exists dirs, last. split; [lia |]. split; [exact Hr |].
        now rewrite join_rejoin.
Qed.

End RecoveryBounds.

(** X1. A path [recoverDirectories] returns has the segments of the
    fragment: it is [./] followed by segments joined with slashes which,
    joined with underscores instead, give the fragment back.  A return
    happens only for a fragment of at most five tokens and commits at most
    four directories. *)
Theorem recoverDirectories_keeps_segments :
  forall (E : NodeEnv) (w : World E) (cwd path r : string),
    recoverDirectories E w cwd path = Ok r ->
    List.length (split "_" path) <= 5
    /\ exists dirs segment,
         List.length dirs <= 4
         /\ r = ("./" ++ join "/" (dirs ++ [segment]))%string
         /\ path = join "_" (dirs ++ [segment]).
Proof.
  intros E w cwd path r H. unfold recoverDirectories in H. split.
  - destruct (Nat.le_gt_cases (List.length (split "_" path)) 5) as [Hle | Hgt];
      [exact Hle |].
    rewrite (loop_over_budget E w cwd 5 "./" (split "_" path) Hgt) in H.
    discriminate H.
  - apply loop_returns_within in H as (dirs & segment & Hlen & Hr & Hjoin).
    exists dirs, segment. split; [lia |].
    rewrite committed_join in Hr. rewrite join_split in Hjoin. now split.
Qed.

(** X2. A fragment without an underscore is one token: it is returned
    after [./] when it does not name a directory, and the recovery throws
    when it does. *)
Theorem recoverDirectories_single_token :
  forall (E : NodeEnv) (w : World E) (cwd path : string),
    includes "_" path = false ->
    recoverDirectories E w cwd path
    = if probe E w cwd "./" path
      then Thrown unexpected_exit
      else Ok ("./" ++ path)%string.
Proof.
  intros E w cwd path H. unfold recoverDirectories, split.
  rewrite split_go_none by exact H. cbn [append].
  destruct (probe E w cwd "./" path) eqn:Hp.
  - rewrite loop_commit by exact Hp. apply loop_nil.
  - now rewrite loop_return.
Qed.

(** ** Renaming *)

Section Renaming.

Variable E : NodeEnv.
Variable files : Files.
Variable version directory : string.



End Renaming.

(** X3. An output name without the marker [_sol_] after the directory
    prefix stops the renaming: the loop throws the [TypeError] of calling
    [split] on [undefined] before it probes, creates or moves anything. *)
Theorem renameOutputs_without_marker :
  forall (E : NodeEnv) (files : Files) (version directory outputPath : string)
         (outputs newNames : list string) (s : State E),
    includes "_sol_"
      (slice (String.length ("contracts_" ++ version ++ "_")) outputPath) = false ->
    renameOutputs E files version directory (outputPath :: outputs) newNames s
    = (Thrown undefined_split, s).
Proof.
  intros E files version directory outputPath outputs newNames s H.
  cbn [renameOutputs]. unfold bind, reading, parseOutputName.
  unfold split. rewrite split_go_none by exact H. reflexivity.
Qed.



(** ** What a run calls *)

Section Emits.

Variable E : NodeEnv.
Variable ok_only : bool.
Variable Q : Logged -> Prop.

Lemma emits_ret {A} (a : A) : emits ok_only Q (ret (E := E) a).
Proof.
  intros s r s' H _. injection H as <- <-. exists []. now rewrite app_nil_r.
Qed.

Lemma emits_throw {A} (e : Error) : emits ok_only Q (throw (E := E) (A := A) e).
Proof.
  intros s r s' H _. injection H as <- <-. exists []. now rewrite app_nil_r.
Qed.

Lemma emits_reading {A} (f : World E -> Result A) : emits ok_only Q (reading f).
Proof.
  intros s r s' H _. injection H as <- <-. exists []. now rewrite app_nil_r.
Qed.

Lemma emits_bind {A B} (m : Script E A) (k : A -> Script E B) :
  emits ok_only Q m -> (forall a, emits ok_only Q (k a)) ->
  emits ok_only Q (bind m k).
Proof.
  intros Hm Hk s r s' H Hok. unfold bind in H.
  destruct (m s) as [[a|e] s1] eqn:Hrun.
  - destruct (Hm _ _ _ Hrun) as (added1 & Ht1 & Hq1); [reflexivity |].
    destruct (Hk a _ _ _ H Hok) as (added2 & Ht2 & Hq2).
    exists (added1 ++ added2). split.
    + now rewrite Ht2, Ht1, <- app_assoc.
    + apply Forall_app. now split.
  - injection H as <- <-. exact (Hm _ _ _ Hrun Hok).
Qed.

Lemma emits_effect (c : Call) (op : World E -> Result unit * World E) :
  (forall e, (ok_only = true -> e = None) -> Q (c, e)) ->
  emits ok_only Q (effect c op).
Proof.
  intros Hq s r s' H Hok. unfold effect in H.
  destruct (op (world s)) as [r0 w']. injection H as <- <-.
  exists [(c, thrown_by r0)]. split; [reflexivity |].
  constructor; [now apply Hq | constructor].
Qed.

Lemma emits_query {A} (c : Call) (op : World E -> Result A) :
  (forall e, (ok_only = true -> e = None) -> Q (c, e)) ->
  emits ok_only Q (query c op).
Proof.
  intros Hq s r s' H Hok. unfold query in H. injection H as <- <-.
  exists [(c, thrown_by (op (world s)))]. split; [reflexivity |].
  constructor; [now apply Hq | constructor].
Qed.

Lemma emits_total_query {A} (c : Call) (f : World E -> A) :
  Q (c, None) -> emits ok_only Q (query c (fun w => Ok (f w))).
Proof.
  intros Hq s r s' H _. unfold query in H. injection H as <- <-.
  exists [(c, None)]. split; [reflexivity |].
  constructor; [exact Hq | constructor].
Qed.

Lemma emits_console_log (text : string) :
  Q (call_console_log text, None) -> emits ok_only Q (console_log E text).
Proof.
  intros Hq s r s' H _. rewrite console_log_run in H. injection H as <- <-.
  exists [(call_console_log text, None)]. split; [reflexivity |].
  constructor; [exact Hq | constructor].
Qed.

Lemma emits_for_of {A} (body : A -> Script E unit) (l : list A) :
  (forall x, emits ok_only Q (body x)) -> emits ok_only Q (for_of E l body).
Proof.
  intros Hbody. induction l as [|x l IH]; cbn [for_of].
  - apply emits_ret.
  - apply emits_bind; [apply Hbody | intros _; exact IH].
Qed.

Lemma emits_array_map {A B} (f : A -> Script E B) (l : list A) :
  (forall x, emits ok_only Q (f x)) -> emits ok_only Q (array_map E f l).
Proof.
  intros Hf. induction l as [|x l IH]; cbn [array_map].
  - apply emits_ret.
  - apply emits_bind; [apply Hf | intros y].
    apply emits_bind; [exact IH | intros ys; apply emits_ret].
Qed.

End Emits.

Lemma emits_try_catch (E : NodeEnv) (ok_only : bool) (Q : Logged -> Prop) {A}
    (m : Script E A) (handler : Error -> Script E A) :
  emits false Q m -> (forall e, emits ok_only Q (handler e)) ->
  emits ok_only Q (try_catch m handler).
Proof.
  intros Hm Hh s r s' H Hok. unfold try_catch in H.
  destruct (m s) as [[a|e] s1] eqn:Hrun.
  - injection H as <- <-. apply (Hm _ _ _ Hrun). discriminate.
  - destruct (Hm _ _ _ Hrun) as (added1 & Ht1 & Hq1); [discriminate |].
    destruct (Hh e _ _ _ H Hok) as (added2 & Ht2 & Hq2).
    exists (added1 ++ added2). split.
    + now rewrite Ht2, Ht1, <- app_assoc.
    + apply Forall_app. now split.
Qed.

(** The calls of each step, for a [Q] that holds of the calls the step can
    make. *)
Ltac emits_step :=
  repeat first
    [ apply emits_bind; [| intros ?]
    | apply emits_for_of; intros ?
    | apply emits_array_map; intros ?
    | apply emits_console_log
    | apply emits_effect; intros ? ?
    | apply emits_total_query
    | apply emits_query; intros ? ?
    | apply emits_reading
    | apply emits_ret
    | apply emits_throw
    | match goal with |- emits _ _ (let '(_, _) := ?p in _) => destruct p end
    | match goal with |- emits _ _ (if ?b then _ else _) => destruct b end ].

Section Steps.

Variable E : NodeEnv.
Variable ok_only : bool.
Variable Q : Logged -> Prop.

Hypothesis Q_log : forall text, Q (call_console_log text, None).

Lemma findFiles_emits :
  (forall path flag e, (ok_only = true -> e = None) -> Q (call_readdirSync path flag, e)) ->
  (forall pattern cwd, Q (call_globSync pattern cwd, None)) ->
  emits ok_only Q (findFiles E).
Proof.
  intros Hread Hglob. unfold findFiles. emits_step; auto.
Qed.

Lemma generateABIs_emits files :
  (forall command cwd e, (ok_only = true -> e = None) -> Q (call_execSync command cwd, e)) ->
  emits ok_only Q (generateABIs E files).
Proof.
  intros Hexec. unfold generateABIs. emits_step; auto.
Qed.

Lemma renameOutputs_emits files version directory outputs :
  (forall path flag e, (ok_only = true -> e = None) -> Q (call_mkdirSync path flag, e)) ->
  (forall old new e, (ok_only = true -> e = None) -> Q (call_renameSync old new, e)) ->
  forall newNames,
    emits ok_only Q (renameOutputs E files version directory outputs newNames).
Proof.
  intros Hmkdir Hrename.
  induction outputs as [|outputPath outputs IH]; intros newNames; cbn [renameOutputs].
  - apply emits_ret.
  - apply emits_bind; [apply emits_reading | intros [[filePath contractName] extension]].
    apply emits_bind; [apply emits_effect; auto | intros _].
    apply emits_bind; [apply emits_effect; auto | intros _]. apply IH.
Qed.

Lemma renameOutputNames_emits files :
  (forall path flag e, (ok_only = true -> e = None) -> Q (call_readdirSync path flag, e)) ->
  (forall path flag e, (ok_only = true -> e = None) -> Q (call_mkdirSync path flag, e)) ->
  (forall old new e, (ok_only = true -> e = None) -> Q (call_renameSync old new, e)) ->
  emits ok_only Q (renameOutputNames E files).
Proof.
  intros Hread Hmkdir Hrename. unfold renameOutputNames.
  apply emits_bind; [now apply emits_console_log | intros _].
  apply emits_for_of. intros version.
  apply emits_bind; [apply emits_query; auto | intros outputs].
  apply emits_bind; [now apply renameOutputs_emits | intros newNames].
  now apply emits_console_log.
Qed.

Lemma copyTruffleV5_emits files :
  (forall src dest flag e, (ok_only = true -> e = None) -> Q (call_copySync src dest flag, e)) ->
  emits ok_only Q (copyTruffleV5 E files).
Proof.
  intros Hcopy. unfold copyTruffleV5. emits_step; auto.
Qed.

Lemma copyPrebuiltABIs_emits files :
  (forall src dest flag e, (ok_only = true -> e = None) -> Q (call_copySync src dest flag, e)) ->
  emits ok_only Q (copyPrebuiltABIs E files).
Proof.
  intros Hcopy. unfold copyPrebuiltABIs. emits_step; auto.
Qed.

End Steps.

(** ** A whole run *)







Lemma removals_app tr1 tr2 : removals (tr1 ++ tr2) = removals tr1 ++ removals tr2.
Proof. unfold removals. now rewrite map_app, filter_app. Qed.

Lemma no_removals (added : list Logged) :
  Forall (fun l => is_rmdir (fst l) = false) added -> removals added = [].
Proof.
  induction 1 as [|[c e] added Hc _ IH]; [reflexivity |].
  unfold removals in *. cbn [map filter fst] in *. now rewrite Hc.
Qed.

Section WholeRun.

Variable E : NodeEnv.







Lemma after_reset_emits ok_only (Q : Logged -> Prop) files :
  (forall c e, is_rmdir c = false -> (ok_only = true -> e = None) -> Q (c, e)) ->
  emits ok_only Q (after_reset E files).
Proof.
  intros Hq. unfold after_reset.
  apply emits_bind; [apply generateABIs_emits; intros; now apply Hq | intros _].
  apply emits_bind; [apply renameOutputNames_emits; intros; now apply Hq | intros _].
  apply emits_bind; [apply copyTruffleV5_emits; intros; now apply Hq | intros _].
  apply copyPrebuiltABIs_emits; intros; now apply Hq.
Qed.

End WholeRun.


(** X7. When the contracts root cannot be listed, [main] throws the error
    of the listing; the listing is the only call it has made, so nothing was
    removed, compiled or copied, and the world is as it was. *)
Theorem main_listing_failure :
  forall (E : NodeEnv) (s0 : State E) (e : Error),
    readdirSync_withFileTypes E (contractsDir_of E) (world s0) = Thrown e ->
    main E s0
    = (Thrown e, logged s0 [(call_readdirSync (contractsDir_of E) true, Some e)]).
Proof.
  intros E s0 e H. unfold main. apply bind_thrown.
  rewrite findFiles_run. now rewrite H.
Qed.

(** X8. Whatever its outcome, a run of [main] removes at most one
    directory, the output directory [compiled] below the contracts root. *)
Theorem main_removes_only_outDir :
  forall (E : NodeEnv) (s0 : State E) (r : Result unit) (s' : State E),
    main E s0 = (r, s') ->
    exists added,
      trace s' = trace s0 ++ added
      /\ (removals added = []
          \/ removals added
             = [call_rmdirSync (resolve E [contractsDir_of E; "compiled"]) true]).
Proof.
  intros E s0 r s' H.
  assert (Hfind_emits : emits false (fun l => is_rmdir (fst l) = false) (findFiles E))
    by (apply findFiles_emits; intros; reflexivity).
  destruct (findFiles E s0) as [[files|e] s1] eqn:Hfind.
  - destruct (Hfind_emits _ _ _ Hfind) as (added1 & Ht1 & Hq1); [discriminate |].
    apply no_removals in Hq1.
    rewrite (main_after_findFiles E s0 files s1 Hfind) in H.
    destruct (findFiles_ok E s0 files s1 Hfind) as (_ & _ & _ & _ & _ & Hout & _).
    unfold bind in H. rewrite removeOutDir_run in H.
    destruct (rmdirSync E (outDir files) true (world s1)) as [r0 w2].
    set (reset := [(call_console_log (bold E "Cleaning up contracts/abis"), None);
                   (call_rmdirSync (outDir files) true, thrown_by r0)]) in H.
    assert (Hreset : removals reset
                     = [call_rmdirSync (resolve E [contractsDir_of E; "compiled"]) true])
      by (unfold removals, reset; cbn; now rewrite Hout).
    destruct (match r0 with
              | Ok _ => Ok tt
              | Thrown e => if is_ENOENT e then Ok tt else Thrown e
              end) as [[]|e].
    + assert (Hrest : emits false (fun l => is_rmdir (fst l) = false)
                        (after_reset E files))
        by (apply after_reset_emits; intros c e Hc _; exact Hc).
      destruct (Hrest _ _ _ H) as (added3 & Ht3 & Hq3); [discriminate |].
      apply no_removals in Hq3. cbn [trace] in Ht3.
      exists (added1 ++ reset ++ added3). split.
      * rewrite Ht3, Ht1. now rewrite <- !app_assoc.
      * right. now rewrite !removals_app, Hq1, Hq3, Hreset.
    + injection H as <- <-. exists (added1 ++ reset). split.
      * cbn [trace]. now rewrite Ht1, <- app_assoc.
      * right. now rewrite removals_app, Hq1, Hreset.
  - unfold main in H. rewrite (bind_thrown E _ _ _ _ _ Hfind) in H.
    injection H as <- <-.
    destruct (Hfind_emits _ _ _ Hfind) as (added1 & Ht1 & Hq1); [discriminate |].
    exists added1. split; [exact Ht1 |]. left. now apply no_removals.
Qed.


Lemma keys_Map_set_distinct {V} (k : string) (v : V) m :
  NoDup (keys m) -> NoDup (keys (Map_set k v m)).
Proof.
  induction m as [|[k' v'] m IH]; simpl; intros Hnd.
  - repeat constructor. intros [].
  - inversion Hnd as [|? ? Hfresh Hrest]; subst.
    destruct (String.eqb k' k) eqn:Hk; simpl; constructor; auto.
    intros Hin. apply keys_Map_set in Hin as [-> | Hin]; [| now apply Hfresh].
    now rewrite String.eqb_refl in Hk.
Qed.

Lemma new_Map_keys_distinct {V} (pairs : list (string * V)) : NoDup (keys (new_Map pairs)).
Proof.
  unfold new_Map.
  assert (H : forall acc : list (string * V),
             NoDup (keys acc) ->
             NoDup (keys (fold_left (fun m kv => Map_set (fst kv) (snd kv) m) pairs acc))).
  { induction pairs as [|[k v] pairs IH]; intros acc Hacc; simpl; [exact Hacc |].
    apply IH. now apply keys_Map_set_distinct. }
  apply H. constructor.
Qed.

(** X10. The version mapping [findFiles] returns holds no version twice,
    and every version in it starts with [v]: its compiler range is [^]
    followed by the name without the [v]. *)
Theorem findFiles_versions :
  forall (E : NodeEnv) (s s' : State E) (files : Files),
    findFiles E s = (Ok files, s') ->
    NoDup (keys (contracts files))
    /\ forall version,
         In version (keys (contracts files)) ->
         startsWith version "v" = true
         /\ semver_of version = String "^" (slice 1 version).
Proof.
  intros E s s' files H.
  destruct (findFiles_ok E s files s' H) as (dirents & _ & _ & _ & _ & _ & -> & _).
  split; [apply new_Map_keys_distinct |].
  intros version Hin. unfold new_Map in Hin.
  apply keys_fold_Map_set in Hin as [[] | Hin].
  rewrite map_map in Hin. apply in_map_iff in Hin as (d & <- & Hd).
  apply filter_In in Hd as [_ Hv]. unfold is_version_dir in Hv.
  apply andb_true_iff in Hv as [_ Hv]. cbn [sources_of fst].
  split; [exact Hv |].
  unfold startsWith in Hv. destruct (dirent_name d) as [|c rest]; [discriminate Hv |].
  rewrite prefix_char in Hv. apply Ascii.eqb_eq in Hv as <-. reflexivity.
Qed.

(** ** The further properties on example trees *)

Module FurtherExamples.

Import Example Scenario.

(** The fragment [utils_Math] over [utils/Math.sol]. *)
Lemma recoverDirectories_keeps_segments_witness :
  List.length (split "_" "utils_Math") <= 5
  /\ exists dirs segment,
       List.length dirs <= 4
       /\ "./utils/Math" = ("./" ++ join "/" (dirs ++ [segment]))%string
       /\ "utils_Math" = join "_" (dirs ++ [segment]).
Proof.
  apply (recoverDirectories_keeps_segments E0 nested "/repo/contracts/v0.8.9"
           "utils_Math" "./utils/Math").
  vm_compute; reflexivity.
Defined.

(** The fragments [Token], which names nothing, and [utils], a directory. *)
Lemma recoverDirectories_single_token_witness :
  recoverDirectories E0 nested "/repo/contracts/v0.8.9" "Token" = Ok "./Token"
  /\ recoverDirectories E0 nested "/repo/contracts/v0.8.9" "utils"
     = Thrown unexpected_exit.
Proof.
  split.
  - rewrite (recoverDirectories_single_token E0 nested "/repo/contracts/v0.8.9" "Token");
      vm_compute; reflexivity.
  - rewrite (recoverDirectories_single_token E0 nested "/repo/contracts/v0.8.9" "utils");
      vm_compute; reflexivity.
Defined.

(** A stray [README.md] in the output directory of [v0.6.4]. *)
Lemma renameOutputs_without_marker_witness :
  renameOutputs E1 files_one_version "v0.6.4" "/repo/contracts/compiled/v0.6.4"
    ["README.md"; "contracts_v0_6_4_A_sol_A.abi"] [] (start E1 compiled_outputs)
  = (Thrown undefined_split, start E1 compiled_outputs).
Proof.
  apply (renameOutputs_without_marker E1 files_one_version "v0.6.4"
           "/repo/contracts/compiled/v0.6.4" "README.md").
  vm_compute; reflexivity.
Defined.




(** A checkout without a contracts root. *)
Lemma main_listing_failure_witness :
  main E1 (start E1 no_contracts)
  = (Thrown listing_failed,
     logged (start E1 no_contracts)
       [(call_readdirSync (contractsDir_of E1) true, Some listing_failed)]).
Proof.
  apply (main_listing_failure E1 (start E1 no_contracts) listing_failed).
  vm_compute; reflexivity.
Defined.

(** A run that stops at the compiler. *)
Lemma main_removes_only_outDir_witness :
  let s0 := start E2 two_versions in
  exists added,
    trace (snd (main E2 s0)) = trace s0 ++ added
    /\ (removals added = []
        \/ removals added
           = [call_rmdirSync (resolve E2 [contractsDir_of E2; "compiled"]) true]).
Proof.
  intros s0.
  apply (main_removes_only_outDir E2 s0 (fst (main E2 s0)) (snd (main E2 s0))).
  vm_compute; reflexivity.
Defined.


(** The two version groups of [two_versions]. *)
Lemma findFiles_versions_witness :
  let s := start E2 two_versions in
  NoDup (keys (contracts files_two_versions))
  /\ forall version,
       In version (keys (contracts files_two_versions)) ->
       startsWith version "v" = true
       /\ semver_of version = String "^" (slice 1 version).
Proof.
  intros s.
  apply (findFiles_versions E2 s (snd (findFiles E2 s)) files_two_versions).
  vm_compute; reflexivity.
Defined.

End FurtherExamples.
